(** * generate-icon.py: the MoodleBox icon generator

    A shallow embedding of [generate-icon.py] and the properties of its
    gradient, font resolution, text placement and file output.

    Python integers are [Z]; Python floats are IEEE-754 binary64 values,
    taken from the specification of floating-point arithmetic of the
    Standard Library ([SpecFloat], precision 53, [emax] 1024); exceptions
    are an error monad; the file system and the standard output are an
    explicit state.  The Pillow primitives the script calls are modelled
    after their documented behaviour on the arguments the script passes;
    font parsing, text measurement, glyph rasterisation and the PNG encoder
    are an interface ([Pillow]) the development is parametric in. *)

From Stdlib Require Import ZArith QArith Floats.SpecFloat Ascii Lia.
From stdpp Require Import gmap strings list fin_maps.

Local Open Scope Z_scope.

(** ** Exceptions *)

Inductive exn : Type :=
  | ZeroDivisionError
  | OverflowError
  | ValueError
  | OSError
  | FileNotFoundError
  | IsADirectoryError
  | OtherError (msg : string).

Inductive outcome (A : Type) : Type :=
  | Ret (a : A)
  | Raise (e : exn).
Arguments Ret {A} a.
Arguments Raise {A} e.

#[global] Instance outcome_ret : MRet outcome := λ A a, Ret a.
#[global] Instance outcome_bind : MBind outcome := λ A B f m,
  match m with
  | Ret a => f a
  | Raise e => Raise e
  end.

(** [for x in xs: s = body(x, s)], leaving the loop at the first exception. *)
Fixpoint for_in {A S : Type} (xs : list A) (body : A → S → outcome S) (s : S)
  : outcome S :=
  match xs with
  | [] => Ret s
  | x :: xs' => s' ← body x s; for_in xs' body s'
  end.

(** [range(n)] *)
Definition range (n : Z) : list Z := seqZ 0 n.

(** ** Python floats *)

Abbreviation float := spec_float.

Definition prec : Z := 53.
Definition emax : Z := 1024.

(** An integer as an unrounded binary64 operand (mantissa of any length). *)
Definition int_operand (z : Z) : float :=
  match z with
  | Z0 => S754_zero false
  | Zpos p => S754_finite false p 0
  | Zneg p => S754_finite true p 0
  end.

Definition finite_or_overflow (f : float) : outcome float :=
  match f with
  | S754_infinity _ => Raise OverflowError
  | _ => Ret f
  end.

(** [float(z)]: the nearest binary64, ties to even; [OverflowError] when
    the integer is too large. *)
Definition float_of_int (z : Z) : outcome float :=
  finite_or_overflow (binary_normalize prec emax z 0 false).

(** [a / b] on two integers: the correctly rounded quotient. *)
Definition int_truediv (a b : Z) : outcome float :=
  if b =? 0 then Raise ZeroDivisionError
  else finite_or_overflow (SFdiv prec emax (int_operand a) (int_operand b)).

(** [a * x], [a + x] and [x - a] with an integer [a] and a float [x]: the
    integer is converted first. *)
Definition int_mul_float (a : Z) (x : float) : outcome float :=
  fa ← float_of_int a; mret (SFmul prec emax fa x).

Definition int_add_float (a : Z) (x : float) : outcome float :=
  fa ← float_of_int a; mret (SFadd prec emax fa x).

Definition float_sub_int (x : float) (a : Z) : outcome float :=
  fa ← float_of_int a; mret (SFsub prec emax x fa).

(** [int(x)]: truncation toward zero. *)
Definition int_of_float (x : float) : outcome Z :=
  match x with
  | S754_zero _ => Ret 0
  | S754_infinity _ => Raise OverflowError
  | S754_nan => Raise ValueError
  | S754_finite s m e =>
      Ret (cond_Zopp s (if 0 <=? e then Z.shiftl (Zpos m) e
                        else Z.shiftr (Zpos m) (- e)))
  end.

(** The rational number a finite float denotes. *)
Definition float_value (x : float) : option Q :=
  match x with
  | S754_zero _ => Some 0%Q
  | S754_finite s m e =>
      Some (if 0 <=? e then inject_Z (cond_Zopp s (Zpos m) * 2 ^ e)
            else Qmake (cond_Zopp s (Zpos m)) (2 ^ Z.to_pos (- e)))
  | _ => None
  end.

(** ** Colours and the canvas *)

Definition color : Type := Z * Z * Z.

Definition item0 (c : color) : Z := c.1.1.
Definition item1 (c : color) : Z := c.1.2.
Definition item2 (c : color) : Z := c.2.

Record image : Type := Image {
  im_mode : string;
  im_size : Z * Z;
  im_rows : list (list color);
}.

(** [Image.new(mode, (w, h))]: every pixel black. *)
Definition Image_new (mode : string) (size : Z * Z) : outcome image :=
  if bool_decide (size.1 < 0 ∨ size.2 < 0) then Raise ValueError
  else Ret (Image mode size
              (replicate (Z.to_nat size.2) (replicate (Z.to_nat size.1) (0, 0, 0)))).

Definition getpixel (im : image) (xy : Z * Z) : option color :=
  if bool_decide (0 ≤ xy.1 ∧ 0 ≤ xy.2) then
    row ← im_rows im !! Z.to_nat xy.2; row !! Z.to_nat xy.1
  else None.

(** Columns [x0..x1] of a row take the ink, [i] being the column of the
    first pixel of [row]; columns outside the row do not exist, which clips
    the span to the canvas. *)
Fixpoint fill_from (i x0 x1 : Z) (ink : color) (row : list color) : list color :=
  match row with
  | [] => []
  | p :: rest =>
      (if (x0 <=? i) && (i <=? x1) then ink else p) :: fill_from (i + 1) x0 x1 ink rest
  end.

Definition fill_span (x0 x1 : Z) (ink : color) (row : list color) : list color :=
  fill_from 0 x0 x1 ink row.

(** Pillow's horizontal-line primitive. *)
Definition hline (im : image) (x0 y x1 : Z) (ink : color) : image :=
  if bool_decide (0 ≤ y < (im_size im).2) then
    Image (im_mode im) (im_size im)
      (alter (fill_span (Z.min x0 x1) (Z.max x0 x1) ink) (Z.to_nat y) (im_rows im))
  else im.

(** [draw.line([p0, p1], fill=ink)] with the default width.  The script
    only draws segments whose two ordinates are equal; those are painted by
    the horizontal-line primitive, both end points included.  Other
    segments are outside this model and leave the canvas as it is. *)
Definition draw_line (im : image) (p0 p1 : Z * Z) (ink : color) : image :=
  if bool_decide (p0.2 = p1.2) then hline im p0.1 p0.2 p1.1 ink else im.

(** [putpixel], clipped to the canvas. *)
Definition putpixel (im : image) (xy : Z * Z) (c : color) : image :=
  if bool_decide (0 ≤ xy.1 ∧ 0 ≤ xy.2) then
    Image (im_mode im) (im_size im)
      (alter (λ row, <[Z.to_nat xy.1 := c]> row) (Z.to_nat xy.2) (im_rows im))
  else im.

(** A canvas whose buffer has the rows and columns its size announces. *)
Definition well_sized (im : image) : Prop :=
  0 ≤ (im_size im).1 ∧ 0 ≤ (im_size im).2 ∧
  length (im_rows im) = Z.to_nat (im_size im).2 ∧
  Forall (λ row, length row = Z.to_nat (im_size im).1) (im_rows im).

(** ** The script: canvas and gradient (lines 11-26) *)

Definition width : Z := 1024.
Definition height : Z := 1024.

Definition light_orange : color := (255, 136, 0).
Definition dark_orange : color := (255, 85, 0).

(** [int(light + (dark - light) * ratio)] *)
Definition interpolate (light dark : Z) (ratio : float) : outcome Z :=
  step ← int_mul_float (dark - light) ratio;
  sum ← int_add_float light step;
  int_of_float sum.

(** The body of the gradient loop up to the colour of row [y]. *)
Definition row_color (y : Z) : outcome color :=
  ratio ← int_truediv y height;
  r ← interpolate (item0 light_orange) (item0 dark_orange) ratio;
  g ← interpolate (item1 light_orange) (item1 dark_orange) ratio;
  b ← interpolate (item2 light_orange) (item2 dark_orange) ratio;
  mret (r, g, b).

Definition gradient_body (y : Z) (im : image) : outcome image :=
  fill ← row_color y;
  mret (draw_line im (0, y) (width, y) fill).

Definition draw_gradient (im : image) : outcome image :=
  for_in (range height) gradient_body im.

(** ** The interpolation formula over the rationals *)

(** Truncation of a rational toward zero. *)
Definition Qtrunc (q : Q) : Z := Z.quot (Qnum q) (Zpos (Qden q)).

(** [light + (dark - light) * (y / height)] in exact arithmetic. *)
Definition exact_channel (light dark y : Z) : Q :=
  (inject_Z light + inject_Z (dark - light) * (inject_Z y / inject_Z height))%Q.

Definition formula_color (y : Z) : color :=
  (Qtrunc (exact_channel (item0 light_orange) (item0 dark_orange) y),
   Qtrunc (exact_channel (item1 light_orange) (item1 dark_orange) y),
   Qtrunc (exact_channel (item2 light_orange) (item2 dark_orange) y)).

Definition color_eqb (c d : color) : bool :=
  (item0 c =? item0 d) && (item1 c =? item1 d) && (item2 c =? item2 d).

Definition row_matches_formula (y : Z) : bool :=
  match row_color y with
  | Ret c => color_eqb c (formula_color y)
  | Raise _ => false
  end.

(** ** The file system and the standard output *)

Record world : Type := World {
  files : gmap string (list Byte.byte);
  dirs : gset string;
  stdout : list string;
}.

(** Statements of the script: they read and change the world and may raise. *)
Definition prog (A : Type) : Type := world → outcome A * world.

#[global] Instance prog_ret : MRet prog := λ A a w, (Ret a, w).
#[global] Instance prog_bind : MBind prog := λ A B f m w,
  match m w with
  | (Ret a, w') => f a w'
  | (Raise e, w') => (Raise e, w')
  end.

Definition lift {A : Type} (o : outcome A) : prog A := λ w, (o, w).

(** [try: body / except: handler], a bare [except] that catches everything. *)
Definition try_except {A : Type} (body : prog A) (handler : exn → prog A) : prog A :=
  λ w, match body w with
       | (Ret a, w') => (Ret a, w')
       | (Raise e, w') => handler e w'
       end.

(** [os.path.exists(path)]: a file or a directory of that name. *)
Definition exists_in (w : world) (path : string) : bool :=
  bool_decide (is_Some (files w !! path) ∨ path ∈ dirs w).

Definition path_exists (path : string) : prog bool := λ w,
  (Ret (exists_in w path), w).

(** The directory part of a path; empty when the path has no slash. *)
Fixpoint has_slash (p : string) : bool :=
  match p with
  | EmptyString => false
  | String c rest => if Ascii.eqb c "/"%char then true else has_slash rest
  end.

Fixpoint parent_dir (p : string) : string :=
  match p with
  | EmptyString => EmptyString
  | String c rest => if has_slash rest then String c (parent_dir rest) else EmptyString
  end.

(** [print(line)] *)
Definition print (line : string) : prog unit := λ w,
  (Ret tt, World (files w) (dirs w) (stdout w ++ [line])).

Definition newline : string := String (Ascii.ascii_of_nat 10) EmptyString.

(** ** The Pillow services the script relies on *)

Class Pillow : Type := {
  font : Type;
  (** FreeType opening the content of a font file at a size *)
  freetype_font : list Byte.byte → Z → outcome font;
  (** [ImageFont.load_default()] *)
  load_default : outcome font;
  (** [draw.textbbox(xy, text, font=font)] *)
  textbbox : Z * Z → string → font → outcome (Z * Z * Z * Z);
  (** the pixels [draw.text] changes on a canvas, with their new colours *)
  text_pixels : image → float * float → string → font → color →
                outcome (list (Z * Z * color));
  (** the encoder of a file format *)
  encode : string → image → list Byte.byte;
}.

Section Script.
Context `{Pillow}.

(** [ImageFont.truetype(path, size)] *)
Definition truetype (path : string) (size : Z) : prog font := λ w,
  match files w !! path with
  | Some data => (freetype_font data size, w)
  | None => (Raise OSError, w)
  end.

(** [draw.text(xy, text, font=font, fill=fill)] *)
Definition draw_text (im : image) (xy : float * float) (text : string)
    (f : font) (fill : color) : outcome image :=
  px ← text_pixels im xy text f fill;
  mret (foldl (λ im' p, putpixel im' (p.1.1, p.1.2) p.2) im px).

(** [image.save(path, format)]: the file is opened for writing, which needs
    its directory, and receives the encoded image. *)
Definition Image_save (im : image) (path format : string) : prog unit := λ w,
  if bool_decide (parent_dir path ≠ EmptyString ∧ parent_dir path ∉ dirs w)
  then (Raise FileNotFoundError, w)
  else if bool_decide (path ∈ dirs w) then (Raise IsADirectoryError, w)
  else (Ret tt, World (<[path := encode format im]> (files w)) (dirs w) (stdout w)).

(** *** Lines 11-26: the canvas and its gradient *)

Definition gradient_canvas : outcome image :=
  image ← Image_new "RGB" (width, height);
  draw_gradient image.

(** *** Lines 28-46: font resolution *)

Definition text : string := "MB".

Definition font_paths : list string :=
  [ "/System/Library/Fonts/Helvetica.ttc";
    "/usr/share/fonts/truetype/dejavu/DejaVuSans-Bold.ttf";
    "C:\Windows\Fonts\arialbd.ttf" ].

(** The [for path in font_paths] loop with its [break]: [None] when no
    path exists. *)
Fixpoint first_existing_font (paths : list string) : prog (option font) :=
  match paths with
  | [] => mret None
  | path :: rest =>
      found ← path_exists path;
      if (found : bool) then f ← truetype path 420; mret (Some f)
      else first_existing_font rest
  end.

Definition resolve_font : prog font :=
  try_except
    (found ← first_existing_font font_paths;
     match found with
     | Some f => mret f
     | None => lift load_default
     end)
    (λ _, lift load_default).

(** *** Lines 48-53: text placement *)

Definition text_position (bbox : Z * Z * Z * Z) : outcome (float * float) :=
  let '(x0, y0, x1, y1) := bbox in
  let text_width := x1 - x0 in
  let text_height := y1 - y0 in
  x ← int_truediv (width - text_width) 2;
  y ← (half ← int_truediv (height - text_height) 2; float_sub_int half 40);
  mret (x, y).

(** *** Lines 55-65: drawing, saving, reporting *)

Definition output_path : string := "build/icon-source.png".

Definition report : prog unit :=
  print ("✅ Icon saved to " +:+ output_path);;
  print (newline +:+ "Next steps:");;
  print "1. Install electron-icon-builder: npm install -g electron-icon-builder";;
  print "2. Generate icons: electron-icon-builder --input=build/icon-source.png --output=build";;
  print "3. This will create icon.icns (macOS), icon.ico (Windows), and icon.png (Linux)".

(** Lines 55-65, once the position of the text is known. *)
Definition draw_and_save (image : image) (f : font) (xy : float * float)
  : prog unit :=
  image ← lift (draw_text image xy text f (0, 0, 0));
  Image_save image output_path "PNG";;
  report.

(** Lines 48-65, once the font is known. *)
Definition finish (image : image) (f : font) : prog unit :=
  bbox ← lift (textbbox (0, 0) text f);
  xy ← lift (text_position bbox);
  draw_and_save image f xy.

Definition main : prog unit :=
  image ← lift gradient_canvas;
  f ← resolve_font;
  finish image f.

(** The exit status of the interpreter: 1 after an uncaught exception. *)
Definition exit_status (o : outcome unit) : Z :=
  match o with
  | Ret _ => 0
  | Raise _ => 1
  end.

Definition run (w : world) : Z * world :=
  let r := main w in (exit_status r.1, r.2).

End Script.

(** ** Vocabulary of the statements *)

(** The gradient phase completes and leaves colour [c] at pixel [xy]. *)
Definition painted (xy : Z * Z) (c : color) : Prop :=
  ∃ im, gradient_canvas = Ret im ∧ getpixel im xy = Some c.

(** The colour of row [y] in integer arithmetic: truncating
    [136 - 51 * y / 1024] toward zero rounds the subtracted part up. *)
Definition integer_color (y : Z) : color :=
  (255, 136 - (51 * y + 1023) / 1024, 0).

Definition formula_matches_integer (y : Z) : bool :=
  color_eqb (formula_color y) (integer_color y).

(** The bottom row as the specification words it: inside the open interval
    of the interpolated channel and different from the dark end point. *)
Definition bottom_row_strictly_inside : Prop :=
  ∀ x c, 0 ≤ x < width → painted (x, height - 1) c →
    item1 dark_orange < item1 c < item1 light_orange ∧ c ≠ dark_orange.

(** Channel [ch] starts at [start] on row 0, never increases down the
    canvas, and is nearer to [target] on the last row than on the first. *)
Definition decreases_toward (ch : color → Z) (start target : Z) : Prop :=
  (∀ x c, 0 ≤ x < width → painted (x, 0) c → ch c = start) ∧
  (∀ x y x' y' c c', 0 ≤ x < width → 0 ≤ x' < width → 0 ≤ y ≤ y' → y' < height →
     painted (x, y) c → painted (x', y') c' → ch c' ≤ ch c) ∧
  (∀ x c, 0 ≤ x < width → painted (x, height - 1) c →
     Z.abs (ch c - target) < Z.abs (start - target)).

(** Channel [ch] is a monotone function of the row index. *)
Definition channel_monotone (ch : color → Z) : Prop :=
  (∀ x y x' y' c c', 0 ≤ x < width → 0 ≤ x' < width → 0 ≤ y ≤ y' → y' < height →
     painted (x, y) c → painted (x', y') c' → ch c' ≤ ch c) ∨
  (∀ x y x' y' c c', 0 ≤ x < width → 0 ≤ x' < width → 0 ≤ y ≤ y' → y' < height →
     painted (x, y) c → painted (x', y') c' → ch c ≤ ch c').

(** Gradient monotonicity as the specification words it: every channel
    monotone, red flat at 255, blue decreasing from 0 toward 85. *)
Definition monotonicity_as_specified : Prop :=
  (channel_monotone item0 ∧ channel_monotone item1 ∧ channel_monotone item2) ∧
  (∀ x y c, 0 ≤ x < width → 0 ≤ y < height → painted (x, y) c → item0 c = 255) ∧
  decreases_toward item2 0 85.

(** The lines a successful run prints. *)
Definition report_lines : list string :=
  [ "✅ Icon saved to build/icon-source.png";
    newline +:+ "Next steps:";
    "1. Install electron-icon-builder: npm install -g electron-icon-builder";
    "2. Generate icons: electron-icon-builder --input=build/icon-source.png --output=build";
    "3. This will create icon.icns (macOS), icon.ico (Windows), and icon.png (Linux)" ].

(** Two worlds offer the same font files at the candidate paths. *)
Definition same_font_files (w1 w2 : world) : Prop :=
  ∀ path, path ∈ font_paths →
    files w1 !! path = files w2 !! path ∧ (path ∈ dirs w1 ↔ path ∈ dirs w2).

(** Font resolution as the specification words it: the macOS, the Linux
    and the Windows path are tried in that order, the first that exists is
    loaded, and the default font [d] stands in when none exists or when
    loading raises. *)
Definition font_as_specified `{Pillow} (w : world) (d : font) : font :=
  match List.find (exists_in w)
          [ "/System/Library/Fonts/Helvetica.ttc";
            "/usr/share/fonts/truetype/dejavu/DejaVuSans-Bold.ttf";
            "C:\Windows\Fonts\arialbd.ttf" ] with
  | Some path =>
      match (truetype path 420 w).1 with
      | Ret f => f
      | Raise _ => d
      end
  | None => d
  end.

(** ** A concrete instance, for examples *)

(** A font is known by its size alone; a file with some content parses as
    a font; "MB" measures twice its size in width; drawing blackens one
    pixel; the encoder records the format name. *)
Definition sample_pillow : Pillow := {|
  font := Z;
  freetype_font := λ data size,
    match data with
    | [] => Raise OSError
    | _ :: _ => Ret size
    end;
  load_default := Ret 10;
  textbbox := λ xy _ f, Ret (xy.1, xy.2 + 3, xy.1 + 2 * f, xy.2 + f);
  text_pixels := λ _ _ _ _ fill, Ret [(512, 512, fill)];
  encode := λ format _, String.list_byte_of_string format;
|}.

Definition bare_world : world := World ∅ ∅ [].

Definition build_world : world := World ∅ {[ "build" ]} [].

Definition linux_world : world :=
  World {[ "/usr/share/fonts/truetype/dejavu/DejaVuSans-Bold.ttf" := [Byte.x00; Byte.x01] ]}
        {[ "build" ]} [].

(** The Linux world with an earlier icon and some output already there. *)
Definition used_world : world :=
  World (<["build/icon-source.png" := [Byte.x2a]]> (files linux_world))
        {[ "build"; "home" ]} [ "earlier output" ].

(** The finite float [x] is exactly [z * 2 ^ j]. *)
Definition denotes (x : float) (z j : Z) : Prop :=
  match x with
  | S754_zero _ => z = 0
  | S754_finite s m e =>
      cond_Zopp s (Zpos m) * 2 ^ (e - Z.min e j) = z * 2 ^ (j - Z.min e j)
  | _ => False
  end.

(** A world where the macOS path exists but is a directory, while the
    Linux font is a regular file. *)
Definition mac_dir_world : world :=
  World {[ "/usr/share/fonts/truetype/dejavu/DejaVuSans-Bold.ttf" := [Byte.x00; Byte.x01] ]}
        {[ "/System/Library/Fonts/Helvetica.ttc"; "build" ]} [].

(** * Properties *)

(** ** The error monad *)

Lemma outcome_bind_ret {A B : Type} (a : A) (k : A → outcome B) :
  (Ret a ≫= k) = k a.
Proof. reflexivity. Qed.

Lemma outcome_bind_inv {A B : Type} (m : outcome A) (k : A → outcome B) (b : B) :
  (m ≫= k) = Ret b → ∃ a, m = Ret a ∧ k a = Ret b.
Proof. destruct m as [a|e]; [eauto | discriminate]. Qed.

(** ** Rows of the gradient: floating point against exact arithmetic *)

Lemma color_eqb_eq (c d : color) : color_eqb c d = true → c = d.
Proof.
  destruct c as [[r g] b], d as [[r' g'] b']; unfold color_eqb, item0, item1, item2.
  cbn [fst snd]. rewrite !andb_true_iff, !Z.eqb_eq. intros [[-> ->] ->]. reflexivity.
Qed.

Lemma all_rows_match_formula : forallb row_matches_formula (range height) = true.
Proof. vm_compute. reflexivity. Qed.

(** Every operation of the interpolation is exact on the rows of the canvas:
    the binary64 computation returns the truncated rational value. *)
Lemma row_color_formula (y : Z) :
  0 ≤ y < height → row_color y = Ret (formula_color y).
Proof.
  intros Hy.
  pose proof all_rows_match_formula as Hall.
  rewrite forallb_forall in Hall.
  assert (Hin : In y (range height)).
  { apply list_elem_of_In, elem_of_seqZ. lia. }
  specialize (Hall y Hin). unfold row_matches_formula in Hall.
  destruct (row_color y) as [c|e]; [|discriminate].
  f_equal. apply color_eqb_eq, Hall.
Qed.

(** ** Canvas primitives *)

Lemma Image_new_ret (mode : string) (w h : Z) :
  0 ≤ w → 0 ≤ h →
  Image_new mode (w, h) =
    Ret (Image mode (w, h) (replicate (Z.to_nat h) (replicate (Z.to_nat w) (0, 0, 0)))).
Proof.
  intros Hw Hh. unfold Image_new. cbn [fst snd].
  rewrite bool_decide_eq_false_2 by lia. reflexivity.
Qed.

Lemma getpixel_new (mode : string) (w h x y : Z) :
  0 ≤ x < w → 0 ≤ y < h →
  getpixel (Image mode (w, h) (replicate (Z.to_nat h) (replicate (Z.to_nat w) (0, 0, 0))))
    (x, y) = Some (0, 0, 0).
Proof.
  intros Hx Hy. unfold getpixel. cbn [fst snd im_rows].
  rewrite bool_decide_eq_true_2 by lia.
  rewrite lookup_replicate_2 by lia. cbn [mbind option_bind].
  apply lookup_replicate_2. lia.
Qed.

Lemma well_sized_new (mode : string) (w h : Z) :
  0 ≤ w → 0 ≤ h →
  well_sized (Image mode (w, h) (replicate (Z.to_nat h) (replicate (Z.to_nat w) (0, 0, 0)))).
Proof.
  intros Hw Hh. unfold well_sized. cbn [fst snd im_size im_rows].
  repeat split; try lia.
  - apply length_replicate.
  - apply Forall_replicate, length_replicate.
Qed.

Lemma well_sized_getpixel (im : image) (x y : Z) :
  well_sized im →
  is_Some (getpixel im (x, y)) ↔ 0 ≤ x < (im_size im).1 ∧ 0 ≤ y < (im_size im).2.
Proof.
  intros (Hw & Hh & Hlen & Hrows). unfold getpixel. cbn [fst snd].
  case_bool_decide as Hxy.
  - destruct (im_rows im !! Z.to_nat y) as [row|] eqn:Hrow; cbn [mbind option_bind].
    + assert (Hl : length row = Z.to_nat (im_size im).1).
      { rewrite Forall_lookup in Hrows. eapply Hrows, Hrow. }
      apply lookup_lt_Some in Hrow. rewrite lookup_lt_is_Some. lia.
    + apply lookup_ge_None in Hrow. split; [intros [? ?]; discriminate | lia].
  - split; [intros [? ?]; discriminate | lia].
Qed.

Lemma fill_from_length (i x0 x1 : Z) (ink : color) (row : list color) :
  length (fill_from i x0 x1 ink row) = length row.
Proof.
  revert i. induction row as [|p rest IH]; intros i; [reflexivity|].
  cbn [fill_from length]. by rewrite IH.
Qed.

Lemma fill_span_length (x0 x1 : Z) (ink : color) (row : list color) :
  length (fill_span x0 x1 ink row) = length row.
Proof. apply fill_from_length. Qed.

Lemma fill_from_lookup (i x0 x1 : Z) (ink : color) (row : list color) (k : nat) :
  fill_from i x0 x1 ink row !! k =
    (λ p, if bool_decide (x0 ≤ i + Z.of_nat k ≤ x1) then ink else p) <$> row !! k.
Proof.
  revert i k. induction row as [|p rest IH]; intros i k; [by destruct k|].
  cbn [fill_from]. destruct k as [|k].
  - cbn. f_equal. rewrite Z.add_0_r.
    destruct (Z.leb_spec x0 i), (Z.leb_spec i x1); cbn [andb];
      case_bool_decide; try reflexivity; exfalso; lia.
  - cbn [lookup list_lookup]. rewrite IH.
    destruct (rest !! k) as [q|]; cbn; [|reflexivity].
    f_equal. replace (i + 1 + Z.of_nat k) with (i + Z.of_nat (S k)) by lia.
    reflexivity.
Qed.

Lemma getpixel_hline (im : image) (x0 y x1 : Z) (ink : color) (x y' : Z) :
  getpixel (hline im x0 y x1 ink) (x, y') =
    (λ p, if bool_decide (y' = y ∧ 0 ≤ y < (im_size im).2 ∧
                          Z.min x0 x1 ≤ x ≤ Z.max x0 x1) then ink else p)
      <$> getpixel im (x, y').
Proof.
  unfold hline.
  destruct (decide (0 ≤ y < (im_size im).2)) as [Hy|Hy].
  - rewrite bool_decide_eq_true_2 by done.
    unfold getpixel. cbn [fst snd im_rows].
    case_bool_decide as Hxy; [|reflexivity].
    destruct (decide (y' = y)) as [->|Hne].
    + rewrite list_lookup_alter_eq.
      destruct (im_rows im !! Z.to_nat y) as [row|]; cbn; [|reflexivity].
      unfold fill_span. rewrite fill_from_lookup.
      destruct (row !! Z.to_nat x) as [p|]; cbn; [|reflexivity].
      f_equal. rewrite Z.add_0_l, Z2Nat.id by lia.
      repeat case_bool_decide; try reflexivity; exfalso; tauto.
    + rewrite list_lookup_alter_ne by lia.
      destruct (im_rows im !! Z.to_nat y') as [row|]; cbn; [|reflexivity].
      destruct (row !! Z.to_nat x) as [p|]; cbn; [|reflexivity].
      rewrite bool_decide_eq_false_2 by tauto. reflexivity.
  - rewrite bool_decide_eq_false_2 by done.
    destruct (getpixel im (x, y')) as [p|]; cbn; [|reflexivity].
    rewrite bool_decide_eq_false_2 by tauto. reflexivity.
Qed.

Lemma well_sized_hline (im : image) (x0 y x1 : Z) (ink : color) :
  well_sized im → well_sized (hline im x0 y x1 ink).
Proof.
  intros (Hw & Hh & Hlen & Hrows). unfold hline.
  case_bool_decide; [|by repeat split].
  unfold well_sized. cbn [im_size im_rows]. repeat split; try done.
  - by rewrite length_alter.
  - apply Forall_alter; [done|]. intros row _ Hrow.
    by rewrite fill_span_length.
Qed.

Lemma im_size_hline (im : image) (x0 y x1 : Z) (ink : color) :
  im_size (hline im x0 y x1 ink) = im_size im.
Proof. unfold hline. by case_bool_decide. Qed.

Lemma im_mode_hline (im : image) (x0 y x1 : Z) (ink : color) :
  im_mode (hline im x0 y x1 ink) = im_mode im.
Proof. unfold hline. by case_bool_decide. Qed.

(** ** The gradient loop *)

Lemma getpixel_draw_row (im : image) (y : Z) (ink : color) (x y' : Z) :
  im_size im = (width, height) → 0 ≤ y < height →
  getpixel (draw_line im (0, y) (width, y) ink) (x, y') =
    (λ p, if bool_decide (y' = y ∧ 0 ≤ x ≤ width) then ink else p)
      <$> getpixel im (x, y').
Proof.
  intros Hsize Hy. unfold draw_line. cbn [fst snd].
  rewrite bool_decide_eq_true_2 by done.
  rewrite getpixel_hline, Hsize. cbn [snd].
  destruct (getpixel im (x, y')) as [p|]; cbn; [|reflexivity].
  f_equal. unfold width. repeat case_bool_decide; try reflexivity; exfalso; lia.
Qed.

Lemma gradient_body_ret (y : Z) (im : image) :
  0 ≤ y < height →
  gradient_body y im = Ret (draw_line im (0, y) (width, y) (formula_color y)).
Proof. intros Hy. unfold gradient_body. by rewrite (row_color_formula y Hy). Qed.

(** Rows may be painted in any order and any number of times: a row that
    was visited holds its colour of the formula, the others are untouched. *)
Lemma gradient_rows (ys : list Z) (im : image) :
  Forall (λ y, 0 ≤ y < height) ys →
  im_size im = (width, height) →
  ∃ im', for_in ys gradient_body im = Ret im' ∧
    im_size im' = im_size im ∧ im_mode im' = im_mode im ∧
    (well_sized im → well_sized im') ∧
    ∀ x y, getpixel im' (x, y) =
      (λ p, if bool_decide (y ∈ ys ∧ 0 ≤ x ≤ width) then formula_color y else p)
        <$> getpixel im (x, y).
Proof.
  intros Hys. revert im.
  induction Hys as [|y0 ys Hy0 Hys IH]; intros im Hsize.
  - exists im. do 4 (split; [done|]).
    intros x y. destruct (getpixel im (x, y)) as [p|]; cbn; [|reflexivity].
    rewrite bool_decide_eq_false_2; [reflexivity|].
    intros [Hin _]. by apply not_elem_of_nil in Hin.
  - cbn [for_in]. rewrite (gradient_body_ret y0 im Hy0), outcome_bind_ret.
    set (im1 := draw_line im (0, y0) (width, y0) (formula_color y0)).
    assert (Hsize1 : im_size im1 = im_size im).
    { unfold im1, draw_line. cbn [fst snd]. case_bool_decide; [|done].
      apply im_size_hline. }
    assert (Hmode1 : im_mode im1 = im_mode im).
    { unfold im1, draw_line. cbn [fst snd]. case_bool_decide; [|done].
      apply im_mode_hline. }
    destruct (IH im1) as (im' & Hrun & Hsz & Hmd & Hws & Hpx); [congruence|].
    exists im'. split; [exact Hrun|]. split; [congruence|]. split; [congruence|].
    split.
    { intros Hw. apply Hws. unfold im1, draw_line. cbn [fst snd].
      case_bool_decide; [|done]. by apply well_sized_hline. }
    intros x y. rewrite Hpx. unfold im1.
    rewrite getpixel_draw_row by done.
    destruct (getpixel im (x, y)) as [p|]; cbn; [|reflexivity].
    f_equal.
    destruct (decide (y = y0)) as [->|Hne].
    + rewrite (bool_decide_ext (y0 ∈ y0 :: ys ∧ 0 ≤ x ≤ width) (0 ≤ x ≤ width))
        by (rewrite elem_of_cons; tauto).
      rewrite (bool_decide_ext (y0 = y0 ∧ 0 ≤ x ≤ width) (0 ≤ x ≤ width)) by tauto.
      repeat case_bool_decide; try reflexivity; exfalso; tauto.
    + rewrite (bool_decide_ext (y ∈ y0 :: ys ∧ 0 ≤ x ≤ width) (y ∈ ys ∧ 0 ≤ x ≤ width))
        by (rewrite elem_of_cons; tauto).
      rewrite (bool_decide_eq_false_2 (y = y0 ∧ 0 ≤ x ≤ width)) by tauto.
      reflexivity.
Qed.

(** The canvas after line 26: allocated, of the announced size, every pixel
    holding the colour of the formula for its row. *)
Lemma gradient_canvas_spec :
  ∃ im, gradient_canvas = Ret im ∧
    im_mode im = "RGB" ∧ im_size im = (width, height) ∧ well_sized im ∧
    ∀ x y, 0 ≤ x < width → 0 ≤ y < height →
      getpixel im (x, y) = Some (formula_color y).
Proof.
  unfold gradient_canvas.
  rewrite Image_new_ret by (unfold width, height; lia).
  rewrite outcome_bind_ret.
  set (im0 := Image _ _ _).
  destruct (gradient_rows (range height) im0) as (im & Hrun & Hsz & Hmd & Hws & Hpx).
  { apply Forall_forall. intros y Hy. apply elem_of_seqZ in Hy. lia. }
  { reflexivity. }
  exists im. split; [exact Hrun|]. split; [by rewrite Hmd|]. split; [by rewrite Hsz|].
  split.
  { apply Hws, well_sized_new; unfold width, height; lia. }
  intros x y Hx Hy. rewrite Hpx. unfold im0.
  rewrite getpixel_new by done. cbn [fmap option_fmap option_map].
  rewrite bool_decide_eq_true_2; [reflexivity|].
  split; [apply elem_of_seqZ|]; lia.
Qed.

Lemma painted_formula (x y : Z) :
  0 ≤ x < width → 0 ≤ y < height → painted (x, y) (formula_color y).
Proof.
  intros Hx Hy. destruct gradient_canvas_spec as (im & Hrun & _ & _ & _ & Hpx).
  exists im. split; [exact Hrun|]. by apply Hpx.
Qed.

Lemma painted_inj (xy : Z * Z) (c d : color) :
  painted xy c → painted xy d → c = d.
Proof. intros (im & Hr & Hc) (im' & Hr' & Hd). congruence. Qed.

(** ** The formula in integer arithmetic *)

Lemma all_rows_match_integer : forallb formula_matches_integer (range height) = true.
Proof. vm_compute. reflexivity. Qed.

Lemma formula_color_integer (y : Z) :
  0 ≤ y < height → formula_color y = integer_color y.
Proof.
  intros Hy. pose proof all_rows_match_integer as Hall.
  rewrite forallb_forall in Hall.
  apply color_eqb_eq, Hall, list_elem_of_In, elem_of_seqZ. lia.
Qed.

Lemma integer_green_bounds (y : Z) :
  0 ≤ y < height → 85 ≤ 136 - (51 * y + 1023) / 1024 ≤ 136.
Proof.
  unfold height. intros Hy.
  assert (0 ≤ (51 * y + 1023) / 1024) by (apply Z.div_pos; lia).
  assert ((51 * y + 1023) / 1024 < 52) by (apply Z.div_lt_upper_bound; lia).
  lia.
Qed.

Lemma integer_green_monotone (y y' : Z) :
  0 ≤ y ≤ y' →
  136 - (51 * y' + 1023) / 1024 ≤ 136 - (51 * y + 1023) / 1024.
Proof.
  intros Hy.
  assert ((51 * y + 1023) / 1024 ≤ (51 * y' + 1023) / 1024)
    by (apply Z.div_le_mono; lia).
  lia.
Qed.

Lemma painted_integer (x y : Z) :
  0 ≤ x < width → 0 ≤ y < height → painted (x, y) (integer_color y).
Proof.
  intros Hx Hy. rewrite <- formula_color_integer by done. by apply painted_formula.
Qed.

(** ** Claims about the gradient *)

(** C1. For every row [y] of the canvas the gradient loop completes and
    leaves, in every column of that row, the colour whose channels are
    [light + (dark - light) * (y / 1024)] computed over the rationals and
    truncated toward zero, for light = (255,136,0) and dark = (255,85,0):
    the binary64 arithmetic of the script makes no rounding error there. *)
Theorem gradient_rows_follow_formula (x y : Z) :
  0 ≤ y < 1024 → 0 ≤ x < 1024 →
  painted (x, y)
    (Qtrunc (exact_channel 255 255 y),
     Qtrunc (exact_channel 136 85 y),
     Qtrunc (exact_channel 0 0 y)).
Proof. intros Hy Hx. by apply (painted_formula x y). Qed.

Lemma gradient_rows_follow_formula_witness :
  0 ≤ 700 < 1024 ∧ 0 ≤ 33 < 1024 ∧
  painted (33, 700)
    (Qtrunc (exact_channel 255 255 700),
     Qtrunc (exact_channel 136 85 700),
     Qtrunc (exact_channel 0 0 700)).
Proof.
  split; [lia|]. split; [lia|].
  apply (gradient_rows_follow_formula 33 700); lia.
Defined.

(** C4. Every pixel of row 0 is painted exactly (255,136,0), the light
    orange end point. *)
Theorem top_row_is_light_orange (x : Z) :
  0 ≤ x < 1024 → painted (x, 0) (255, 136, 0).
Proof.
  intros Hx. apply (painted_formula x 0); [done | unfold height; lia].
Qed.

Lemma top_row_is_light_orange_witness :
  0 ≤ 1023 < 1024 ∧ painted (1023, 0) (255, 136, 0).
Proof. split; [lia|]. apply (top_row_is_light_orange 1023). lia. Defined.

(** C10. After the gradient loop and before the text is drawn, every pixel
    of the canvas has red 255, blue 0 and a green value in [85, 136], and
    green never increases with the row index. *)
Theorem gradient_canvas_invariant :
  (∀ x y, 0 ≤ x < width → 0 ≤ y < height →
     ∃ g, painted (x, y) (255, g, 0) ∧ 85 ≤ g ≤ 136) ∧
  (∀ x y x' y', 0 ≤ x < width → 0 ≤ x' < width → 0 ≤ y ≤ y' → y' < height →
     ∃ c c', painted (x, y) c ∧ painted (x', y') c' ∧ item1 c' ≤ item1 c).
Proof.
  split.
  - intros x y Hx Hy. exists (136 - (51 * y + 1023) / 1024).
    split; [by apply (painted_integer x y) | by apply integer_green_bounds].
  - intros x y x' y' Hx Hx' Hy Hy'.
    exists (integer_color y), (integer_color y').
    split; [apply painted_integer; [done | lia]|].
    split; [apply painted_integer; [done | lia]|].
    apply integer_green_monotone. lia.
Qed.

Lemma gradient_canvas_invariant_witness :
  (∃ g, painted (10, 512) (255, g, 0) ∧ 85 ≤ g ≤ 136) ∧
  (∃ c c', painted (0, 100) c ∧ painted (1000, 900) c' ∧ item1 c' ≤ item1 c).
Proof.
  split.
  - apply (proj1 gradient_canvas_invariant 10 512); unfold width, height; lia.
  - apply (proj2 gradient_canvas_invariant 0 100 1000 900); unfold width, height; lia.
Defined.

(** C2, refuted as worded: the bottom row is not strictly inside the
    gradient; its pixels hold exactly the dark end point. *)
Lemma bottom_row_not_strictly_inside : ¬ bottom_row_strictly_inside.
Proof.
  intros Hclaim.
  destruct (Hclaim 0 dark_orange) as [_ Hne].
  - unfold width. lia.
  - apply (painted_formula 0 (height - 1)); unfold width, height; lia.
  - by apply Hne.
Qed.

(** C2, amended. Every pixel of the bottom row (row 1023) is painted exactly
    (255,85,0), the dark end point: the interpolation fraction 1023/1024 is
    below 1 and the exact green value lies strictly between 85 and 136, but
    truncation to an integer brings it down to 85. *)
Theorem bottom_row_reaches_dark_orange (x : Z) :
  0 ≤ x < 1024 →
  painted (x, 1023) (255, 85, 0) ∧
  (inject_Z 1023 / inject_Z height < 1)%Q ∧
  (85 < exact_channel 136 85 1023 < 136)%Q ∧
  Qtrunc (exact_channel 136 85 1023) = 85.
Proof.
  intros Hx. split; [|done].
  apply (painted_formula x 1023); [done | unfold height; lia].
Qed.

Lemma bottom_row_reaches_dark_orange_witness :
  0 ≤ 512 < 1024 ∧
  painted (512, 1023) (255, 85, 0) ∧
  (inject_Z 1023 / inject_Z height < 1)%Q ∧
  (85 < exact_channel 136 85 1023 < 136)%Q ∧
  Qtrunc (exact_channel 136 85 1023) = 85.
Proof. split; [lia|]. apply (bottom_row_reaches_dark_orange 512). lia. Defined.

(** C3, refuted as worded: the blue channel does not move from 0 toward 85;
    it is 0 on the last row as on the first. *)
Lemma blue_does_not_decrease_toward_85 : ¬ monotonicity_as_specified.
Proof.
  intros (_ & _ & (_ & _ & Hlast)).
  specialize (Hlast 0 dark_orange).
  assert (Hp : painted (0, height - 1) dark_orange).
  { apply (painted_formula 0 (height - 1)); unfold width, height; lia. }
  specialize (Hlast ltac:(unfold width; lia) Hp).
  unfold item2, dark_orange in Hlast. cbn [snd] in Hlast. lia.
Qed.

(** C3, amended. On every row the red channel is 255 and the blue channel
    is 0, the values both end points share; the green channel, the only
    interpolated one, is 136 on row 0, never increases with the row index,
    and is 85 on row 1023. *)
Theorem gradient_channels_monotone :
  (∀ x y, 0 ≤ x < width → 0 ≤ y < height →
     ∃ c, painted (x, y) c ∧ item0 c = 255 ∧ item2 c = 0) ∧
  (∀ x y x' y', 0 ≤ x < width → 0 ≤ x' < width → 0 ≤ y ≤ y' → y' < height →
     ∃ c c', painted (x, y) c ∧ painted (x', y') c' ∧ item1 c' ≤ item1 c) ∧
  (∀ x, 0 ≤ x < width →
     ∃ c c', painted (x, 0) c ∧ item1 c = 136 ∧
             painted (x, height - 1) c' ∧ item1 c' = 85).
Proof.
  split; [|split].
  - intros x y Hx Hy. exists (integer_color y).
    split; [by apply painted_integer | done].
  - intros x y x' y' Hx Hx' Hy Hy'.
    exists (integer_color y), (integer_color y').
    split; [apply painted_integer; [done | lia]|].
    split; [apply painted_integer; [done | lia]|].
    apply integer_green_monotone. lia.
  - intros x Hx. exists (integer_color 0), (integer_color (height - 1)).
    split; [apply painted_integer; [done | unfold height; lia]|].
    split; [done|].
    split; [apply painted_integer; [done | unfold height; lia]|done].
Qed.

Lemma gradient_channels_monotone_witness :
  (∃ c, painted (3, 4) c ∧ item0 c = 255 ∧ item2 c = 0) ∧
  (∃ c c', painted (1, 2) c ∧ painted (5, 1000) c' ∧ item1 c' ≤ item1 c) ∧
  (∃ c c', painted (7, 0) c ∧ item1 c = 136 ∧
           painted (7, height - 1) c' ∧ item1 c' = 85).
Proof.
  destruct gradient_channels_monotone as (Hflat & Hmono & Hends).
  split; [|split].
  - apply (Hflat 3 4); unfold width, height; lia.
  - apply (Hmono 1 2 5 1000); unfold width, height; lia.
  - apply (Hends 7); unfold width; lia.
Defined.

(** ** Statements of the script *)

Lemma prog_bind_ret {A B : Type} (m : prog A) (k : A → prog B) (w w' : world) (a : A) :
  m w = (Ret a, w') → (m ≫= k) w = k a w'.
Proof. intros Hm. unfold mbind, prog_bind. by rewrite Hm. Qed.

Lemma prog_bind_raise {A B : Type} (m : prog A) (k : A → prog B) (w w' : world) (e : exn) :
  m w = (Raise e, w') → (m ≫= k) w = (Raise e, w').
Proof. intros Hm. unfold mbind, prog_bind. by rewrite Hm. Qed.

Lemma lift_bind {A B : Type} (o : outcome A) (k : A → prog B) (w : world) :
  (lift o ≫= k) w =
    match o with
    | Ret a => k a w
    | Raise e => (Raise e, w)
    end.
Proof. unfold mbind, prog_bind, lift. by destruct o. Qed.

Lemma report_run (w : world) :
  report w = (Ret tt, World (files w) (dirs w) (stdout w ++ report_lines)).
Proof.
  unfold report, mbind, prog_bind, print. cbn [files dirs stdout].
  rewrite <- !(assoc_L (++)). reflexivity.
Qed.

Section ScriptFacts.
Context `{Pillow}.

(** *** Font resolution *)

Lemma first_existing_font_world (paths : list string) (w : world) :
  (first_existing_font paths w).2 = w.
Proof.
  induction paths as [|path rest IH]; [reflexivity|].
  cbn [first_existing_font]. unfold mbind, prog_bind, path_exists.
  destruct (exists_in w path); [|exact IH].
  unfold truetype. destruct (files w !! path) as [data|]; [|reflexivity].
  by destruct (freetype_font data 420).
Qed.

Lemma first_existing_font_spec (paths : list string) (w : world) :
  (first_existing_font paths w).1 =
    match List.find (exists_in w) paths with
    | Some path => f ← (truetype path 420 w).1; mret (Some f)
    | None => Ret None
    end.
Proof.
  induction paths as [|path rest IH]; [reflexivity|].
  cbn [first_existing_font List.find].
  unfold mbind at 1. unfold prog_bind at 1. unfold path_exists at 1.
  destruct (exists_in w path); [|exact IH].
  unfold mbind, prog_bind, outcome_bind, truetype.
  destruct (files w !! path) as [data|]; [|reflexivity].
  by destruct (freetype_font data 420).
Qed.

Lemma resolve_font_world (w : world) : (resolve_font w).2 = w.
Proof.
  unfold resolve_font, try_except, mbind, prog_bind.
  pose proof (first_existing_font_world font_paths w) as Hw.
  destruct (first_existing_font font_paths w) as [[[f|]|e] w1];
    cbn [snd] in Hw; subst w1; unfold lift; by destruct load_default.
Qed.

Lemma resolve_font_outcome (w : world) :
  (resolve_font w).1 =
    match List.find (exists_in w) font_paths with
    | Some path =>
        match (truetype path 420 w).1 with
        | Ret f => Ret f
        | Raise _ => load_default
        end
    | None => load_default
    end.
Proof.
  unfold resolve_font, try_except, mbind, prog_bind.
  pose proof (first_existing_font_world font_paths w) as Hw.
  pose proof (first_existing_font_spec font_paths w) as Hs.
  destruct (first_existing_font font_paths w) as [o w1].
  cbn [fst snd] in Hw, Hs. subst w1 o.
  destruct (List.find (exists_in w) font_paths) as [path|].
  - unfold outcome_bind, lift. destruct (truetype path 420 w).1; [reflexivity|].
    by destruct load_default.
  - unfold lift. by destruct load_default.
Qed.

(** *** The rest of the script, statement by statement *)

Lemma main_unfold (im : image) (w : world) :
  gradient_canvas = Ret im →
  main w =
    match (resolve_font w).1 with
    | Ret f => finish im f w
    | Raise e => (Raise e, w)
    end.
Proof.
  intros Him. unfold main. rewrite Him, lift_bind.
  unfold mbind, prog_bind.
  pose proof (resolve_font_world w) as Hw.
  destruct (resolve_font w) as [[f|e] w1]; cbn [fst snd] in *; by subst w1.
Qed.

Lemma finish_unfold (im : image) (f : font) (w : world) :
  finish im f w =
    match textbbox (0, 0) text f with
    | Ret bbox =>
        match text_position bbox with
        | Ret xy => draw_and_save im f xy w
        | Raise e => (Raise e, w)
        end
    | Raise e => (Raise e, w)
    end.
Proof.
  unfold finish. rewrite lift_bind.
  destruct (textbbox (0, 0) text f) as [bbox|e]; [|reflexivity].
  by rewrite lift_bind.
Qed.

Lemma parent_dir_output_path : parent_dir output_path = "build".
Proof. reflexivity. Qed.

Lemma save_and_report_missing_dir (im : image) (w : world) :
  "build" ∉ dirs w →
  (Image_save im output_path "PNG";; report) w = (Raise FileNotFoundError, w).
Proof.
  intros Hdir. unfold mbind, prog_bind, Image_save.
  rewrite parent_dir_output_path, bool_decide_eq_true_2; [reflexivity|].
  split; [discriminate | exact Hdir].
Qed.

Lemma save_and_report_directory (im : image) (w : world) :
  "build" ∈ dirs w → output_path ∈ dirs w →
  (Image_save im output_path "PNG";; report) w = (Raise IsADirectoryError, w).
Proof.
  intros Hdir Hout. unfold mbind, prog_bind, Image_save.
  rewrite parent_dir_output_path, bool_decide_eq_false_2 by tauto.
  by rewrite bool_decide_eq_true_2.
Qed.

Lemma save_and_report_ok (im : image) (w : world) :
  "build" ∈ dirs w → output_path ∉ dirs w →
  (Image_save im output_path "PNG";; report) w =
    (Ret tt, World (<[output_path := encode "PNG" im]> (files w)) (dirs w)
                   (stdout w ++ report_lines)).
Proof.
  intros Hdir Hout. unfold mbind, prog_bind, Image_save.
  rewrite parent_dir_output_path, bool_decide_eq_false_2 by tauto.
  rewrite bool_decide_eq_false_2 by done.
  by rewrite report_run.
Qed.

Lemma draw_and_save_unfold (im : image) (f : font) (xy : float * float) (w : world) :
  draw_and_save im f xy w =
    match draw_text im xy text f (0, 0, 0) with
    | Ret im' => (Image_save im' output_path "PNG";; report) w
    | Raise e => (Raise e, w)
    end.
Proof. unfold draw_and_save. by rewrite lift_bind. Qed.

(** A run that ends normally went through every step, and its final world
    is the initial one with the encoded canvas and the printed lines. *)
Lemma main_success_inv (w w' : world) :
  main w = (Ret tt, w') →
  ∃ im f bbox xy im',
    gradient_canvas = Ret im ∧ (resolve_font w).1 = Ret f ∧
    textbbox (0, 0) text f = Ret bbox ∧ text_position bbox = Ret xy ∧
    draw_text im xy text f (0, 0, 0) = Ret im' ∧
    "build" ∈ dirs w ∧ (output_path ∉ dirs w) ∧
    w' = World (<[output_path := encode "PNG" im']> (files w)) (dirs w)
               (stdout w ++ report_lines).
Proof.
  destruct gradient_canvas_spec as (im & Him & _).
  rewrite (main_unfold im w Him).
  destruct (resolve_font w).1 as [f|e] eqn:Hf; [|discriminate].
  rewrite finish_unfold.
  destruct (textbbox (0, 0) text f) as [bbox|e] eqn:Hbbox; [|discriminate].
  destruct (text_position bbox) as [xy|e] eqn:Hxy; [|discriminate].
  rewrite draw_and_save_unfold.
  destruct (draw_text im xy text f (0, 0, 0)) as [im'|e] eqn:Hdraw; [|discriminate].
  destruct (decide ("build" ∈ dirs w)) as [Hdir|Hdir].
  - destruct (decide (output_path ∈ dirs w)) as [Hout|Hout].
    + by rewrite save_and_report_directory.
    + rewrite save_and_report_ok by done. intros [= <-].
      exists im, f, bbox, xy, im'.
      exact (conj Him (conj eq_refl (conj Hbbox (conj Hxy (conj Hdraw
               (conj Hdir (conj Hout eq_refl))))))).
  - by rewrite save_and_report_missing_dir.
Qed.

Lemma main_success (w : world) (im im' : image) (f : font)
    (bbox : Z * Z * Z * Z) (xy : float * float) :
  gradient_canvas = Ret im → (resolve_font w).1 = Ret f →
  textbbox (0, 0) text f = Ret bbox → text_position bbox = Ret xy →
  draw_text im xy text f (0, 0, 0) = Ret im' →
  "build" ∈ dirs w → output_path ∉ dirs w →
  main w = (Ret tt, World (<[output_path := encode "PNG" im']> (files w)) (dirs w)
                          (stdout w ++ report_lines)).
Proof.
  intros Him Hf Hbbox Hxy Hdraw Hdir Hout.
  rewrite (main_unfold im w Him), Hf, finish_unfold, Hbbox, Hxy.
  rewrite draw_and_save_unfold, Hdraw. by apply save_and_report_ok.
Qed.

Lemma run_status_0 (w w' : world) : run w = (0, w') ↔ main w = (Ret tt, w').
Proof.
  unfold run. destruct (main w) as [[[]|e] w1]; cbn [fst snd exit_status].
  - split; intros [= <-]; reflexivity.
  - split; intros [=].
Qed.

Lemma main_missing_dir (w : world) :
  "build" ∉ dirs w → ∃ e, main w = (Raise e, w).
Proof.
  intros Hdir. destruct gradient_canvas_spec as (im & Him & _).
  rewrite (main_unfold im w Him).
  destruct (resolve_font w).1 as [f|e]; [|by eexists].
  rewrite finish_unfold.
  destruct (textbbox (0, 0) text f) as [bbox|e]; [|by eexists].
  destruct (text_position bbox) as [xy|e]; [|by eexists].
  rewrite draw_and_save_unfold.
  destruct (draw_text im xy text f (0, 0, 0)) as [im'|e]; [|by eexists].
  rewrite save_and_report_missing_dir by done. by eexists.
Qed.

(** *** Drawing keeps the canvas in shape *)

Lemma putpixel_shape (im : image) (xy : Z * Z) (c : color) :
  im_mode (putpixel im xy c) = im_mode im ∧
  im_size (putpixel im xy c) = im_size im ∧
  (well_sized im → well_sized (putpixel im xy c)).
Proof.
  unfold putpixel. case_bool_decide; [|done].
  split; [done|]. split; [done|].
  intros (Hw & Hh & Hlen & Hrows). unfold well_sized. cbn [im_size im_rows].
  split; [done|]. split; [done|]. split.
  - by rewrite length_alter.
  - apply Forall_alter; [done|]. intros row _ Hrow. by rewrite length_insert.
Qed.

Lemma draw_text_shape (im im' : image) (xy : float * float) (t : string)
    (f : font) (fill : color) :
  draw_text im xy t f fill = Ret im' →
  im_mode im' = im_mode im ∧ im_size im' = im_size im ∧
  (well_sized im → well_sized im').
Proof.
  unfold draw_text. intros Hdraw.
  apply outcome_bind_inv in Hdraw as (px & _ & [= <-]).
  revert im. induction px as [|p px IH]; intros im; [done|].
  cbn [foldl].
  destruct (putpixel_shape im (p.1.1, p.1.2) p.2) as (Hm & Hs & Hw).
  destruct (IH (putpixel im (p.1.1, p.1.2) p.2)) as (Hm' & Hs' & Hw').
  split; [congruence|]. split; [congruence|]. auto.
Qed.

(** *** Font resolution reads the candidate paths only *)

Lemma find_agree {A : Type} (p q : A → bool) (l : list A) :
  (∀ x, x ∈ l → p x = q x) → List.find p l = List.find q l.
Proof.
  induction l as [|a l IH]; intros Hpq; [reflexivity|].
  cbn [List.find]. rewrite <- (Hpq a) by apply list_elem_of_here.
  destruct (p a); [reflexivity|].
  apply IH. intros x Hx. apply Hpq. by apply list_elem_of_further.
Qed.

Lemma resolve_font_agree (w1 w2 : world) :
  same_font_files w1 w2 → (resolve_font w1).1 = (resolve_font w2).1.
Proof.
  intros Hsame. rewrite !resolve_font_outcome.
  assert (Hfind : List.find (exists_in w1) font_paths = List.find (exists_in w2) font_paths).
  { apply find_agree. intros path Hpath.
    destruct (Hsame path Hpath) as [Hfiles Hdirs].
    unfold exists_in. apply bool_decide_ext. rewrite Hfiles. tauto. }
  rewrite <- Hfind.
  destruct (List.find (exists_in w1) font_paths) as [path|] eqn:Hpath; [|reflexivity].
  apply find_some in Hpath as [Hin _]. apply list_elem_of_In in Hin.
  destruct (Hsame path Hin) as [Hfiles _].
  unfold truetype. rewrite <- Hfiles.
  by destruct (files w1 !! path).
Qed.

Lemma output_path_not_font : output_path ∉ font_paths.
Proof.
  unfold font_paths, output_path. rewrite !not_elem_of_cons.
  repeat split; try discriminate. apply not_elem_of_nil.
Qed.

End ScriptFacts.

(** ** Claims about fonts, files and the exit status *)

(** C5. Font resolution raises nothing.  With the built-in default font [d]
    at hand, it returns the font of the first of the macOS, Linux and
    Windows paths (in that order) that exists, or [d] when none exists or
    when loading that file raises; it leaves the world as it found it, and
    the script goes on to measure and draw with that font: a missing font
    file alone does not fail the run. *)
Theorem font_resolution_never_fails `{Pillow} (w : world) (d : font) :
  load_default = Ret d →
  resolve_font w = (Ret (font_as_specified w d), w) ∧
  (List.find (exists_in w) font_paths = None → resolve_font w = (Ret d, w)) ∧
  ∃ im, gradient_canvas = Ret im ∧ main w = finish im (font_as_specified w d) w.
Proof.
  intros Hd.
  assert (Hres : resolve_font w = (Ret (font_as_specified w d), w)).
  { rewrite (surjective_pairing (resolve_font w)).
    rewrite resolve_font_world, resolve_font_outcome, Hd.
    f_equal. unfold font_as_specified. fold font_paths.
    destruct (List.find (exists_in w) font_paths) as [path|]; [|reflexivity].
    by destruct (truetype path 420 w).1. }
  split; [exact Hres|]. split.
  - intros Hnone. rewrite Hres. unfold font_as_specified. fold font_paths.
    by rewrite Hnone.
  - destruct gradient_canvas_spec as (im & Him & _).
    exists im. split; [exact Him|].
    rewrite (main_unfold im w Him), Hres. reflexivity.
Qed.

Lemma font_resolution_never_fails_witness :
  @load_default sample_pillow = Ret 10 ∧
  @resolve_font sample_pillow linux_world = (Ret 420, linux_world) ∧
  @resolve_font sample_pillow bare_world = (Ret 10, bare_world).
Proof.
  split; [reflexivity|].
  split.
  - exact (proj1 (@font_resolution_never_fails sample_pillow linux_world 10 eq_refl)).
  - exact (proj1 (@font_resolution_never_fails sample_pillow bare_world 10 eq_refl)).
Defined.

(** C6. When the directory [build] does not exist the run ends with exit
    status 1 and the world is as before: no directory was created and no
    file was written. *)
Theorem missing_build_directory_fails `{Pillow} (w : world) :
  "build" ∉ dirs w →
  run w = (1, w) ∧
  ("build" ∉ dirs (run w).2) ∧ files (run w).2 = files w.
Proof.
  intros Hdir.
  assert (Hrun : run w = (1, w)).
  { destruct (main_missing_dir w Hdir) as [e He]. unfold run. by rewrite He. }
  rewrite Hrun. split; [reflexivity|]. split; [exact Hdir | reflexivity].
Qed.

Lemma missing_build_directory_fails_witness :
  ("build" ∉ dirs bare_world) ∧ @run sample_pillow bare_world = (1, bare_world).
Proof.
  assert (Hdir : "build" ∉ dirs bare_world) by apply not_elem_of_empty.
  split; [exact Hdir|].
  exact (proj1 (@missing_build_directory_fails sample_pillow bare_world Hdir)).
Defined.

Lemma run_status_fst `{Pillow} (w : world) (n : Z) :
  (run w).1 = n → run w = (n, (run w).2).
Proof. intros <-. apply surjective_pairing. Qed.

(** C9. A run that ends with status 0 has written one file: the final
    files are the initial ones with [build/icon-source.png] set (created or
    overwritten) to the PNG encoding of a canvas in mode RGB, 1024 pixels
    wide and 1024 pixels high, three channels a pixel; directories are as
    before. *)
Theorem successful_run_writes_one_png `{Pillow} (w w' : world) :
  run w = (0, w') →
  ∃ im,
    files w' = <["build/icon-source.png" := encode "PNG" im]> (files w) ∧
    dirs w' = dirs w ∧
    im_mode im = "RGB" ∧ im_size im = (1024, 1024) ∧
    length (im_rows im) = 1024%nat ∧
    Forall (λ row : list color, length row = 1024%nat) (im_rows im).
Proof.
  intros Hrun. apply run_status_0 in Hrun.
  apply main_success_inv in Hrun
    as (im & f & bbox & xy & im' & Him & _ & _ & _ & Hdraw & _ & _ & ->).
  destruct gradient_canvas_spec as (im0 & Him0 & Hmode & Hsize & Hws & _).
  assert (im0 = im) as -> by (rewrite Him0 in Him; by injection Him).
  destruct (draw_text_shape _ _ _ _ _ _ Hdraw) as (Hm & Hs & Hw).
  specialize (Hw Hws). destruct Hw as (_ & _ & Hlen & Hrows).
  rewrite Hs, Hsize in Hlen, Hrows. cbn [fst snd] in Hlen, Hrows.
  exists im'. cbn [files dirs].
  split; [reflexivity|]. split; [reflexivity|].
  split; [by rewrite Hm|]. split; [by rewrite Hs|].
  split; [exact Hlen | exact Hrows].
Qed.

Lemma successful_run_writes_one_png_witness :
  (@run sample_pillow build_world).1 = 0 ∧
  ∃ im,
    files (@run sample_pillow build_world).2 =
      <["build/icon-source.png" := @encode sample_pillow "PNG" im]> (files build_world) ∧
    dirs (@run sample_pillow build_world).2 = dirs build_world ∧
    im_mode im = "RGB" ∧ im_size im = (1024, 1024) ∧
    length (im_rows im) = 1024%nat ∧
    Forall (λ row : list color, length row = 1024%nat) (im_rows im).
Proof.
  assert (Hstatus : (@run sample_pillow build_world).1 = 0)
    by (vm_compute; reflexivity).
  split; [exact Hstatus|].
  exact (@successful_run_writes_one_png sample_pillow build_world _
           (run_status_fst build_world 0 Hstatus)).
Defined.

Lemma same_font_files_after_run (w : world) (bytes : list Byte.byte) (out : list string) :
  same_font_files (World (<[output_path := bytes]> (files w)) (dirs w) out) w.
Proof.
  intros path Hpath. cbn [files dirs]. split; [|reflexivity].
  apply lookup_insert_ne. intros <-. by apply output_path_not_font.
Qed.

(** C8. The bytes of the icon depend on the world through the font files at
    the three candidate paths only: two runs that end with status 0, in
    worlds that offer the same files at those paths, write the same bytes;
    and a run repeated in the world its predecessor left ends with status 0
    again and leaves every file as the first run did. *)
Theorem runs_are_deterministic `{Pillow} :
  (∀ w1 w2 w1' w2',
     same_font_files w1 w2 → run w1 = (0, w1') → run w2 = (0, w2') →
     ∃ bytes, files w1' !! output_path = Some bytes ∧
              files w2' !! output_path = Some bytes) ∧
  (∀ w w', run w = (0, w') →
     ∃ w'', run w' = (0, w'') ∧ files w'' = files w' ∧ dirs w'' = dirs w').
Proof.
  split.
  - intros w1 w2 w1' w2' Hsame Hrun1 Hrun2.
    apply run_status_0, main_success_inv in Hrun1
      as (im1 & f1 & bbox1 & xy1 & im1' & Him1 & Hf1 & Hb1 & Hxy1 & Hd1 & _ & _ & ->).
    apply run_status_0, main_success_inv in Hrun2
      as (im2 & f2 & bbox2 & xy2 & im2' & Him2 & Hf2 & Hb2 & Hxy2 & Hd2 & _ & _ & ->).
    rewrite Him1 in Him2. injection Him2 as <-. clear Him1.
    rewrite (resolve_font_agree w1 w2 Hsame), Hf2 in Hf1. injection Hf1 as <-.
    rewrite Hb2 in Hb1. injection Hb1 as <-.
    rewrite Hxy2 in Hxy1. injection Hxy1 as <-.
    rewrite Hd2 in Hd1. injection Hd1 as <-.
    exists (encode "PNG" im2'). cbn [files].
    split; apply lookup_insert_eq.
  - intros w w' Hrun.
    apply run_status_0, main_success_inv in Hrun
      as (im & f & bbox & xy & im' & Him & Hf & Hb & Hxy & Hd & Hdir & Hout & ->).
    set (w' := World _ _ _).
    assert (Hf' : (resolve_font w').1 = Ret f).
    { rewrite <- Hf. apply resolve_font_agree, same_font_files_after_run. }
    pose proof (main_success w' im im' f bbox xy Him Hf' Hb Hxy Hd Hdir Hout) as Hmain.
    eexists. split; [apply run_status_0, Hmain|].
    cbn [files dirs]. split; [|reflexivity].
    unfold w'. cbn [files]. apply insert_insert_eq.
Qed.

Lemma linux_and_used_same_fonts : same_font_files linux_world used_world.
Proof.
  intros path Hpath. split.
  - symmetry. apply lookup_insert_ne. intros <-. by apply output_path_not_font.
  - unfold linux_world, used_world. cbn [dirs].
    rewrite elem_of_union, !elem_of_singleton.
    unfold font_paths in Hpath. rewrite !elem_of_cons in Hpath.
    destruct Hpath as [->|[->|[->|Hnil]]];
      [| | |by apply not_elem_of_nil in Hnil];
      (split; [intros [=] | intros [[=]|[=]]]).
Qed.

Lemma runs_are_deterministic_witness :
  (@run sample_pillow linux_world).1 = 0 ∧
  (@run sample_pillow used_world).1 = 0 ∧
  (∃ bytes,
     files (@run sample_pillow linux_world).2 !! output_path = Some bytes ∧
     files (@run sample_pillow used_world).2 !! output_path = Some bytes) ∧
  (∃ w'', @run sample_pillow (@run sample_pillow linux_world).2 = (0, w'') ∧
          files w'' = files (@run sample_pillow linux_world).2 ∧
          dirs w'' = dirs (@run sample_pillow linux_world).2).
Proof.
  assert (H1 : (@run sample_pillow linux_world).1 = 0) by (vm_compute; reflexivity).
  assert (H2 : (@run sample_pillow used_world).1 = 0) by (vm_compute; reflexivity).
  pose proof linux_and_used_same_fonts as Hsame.
  split; [exact H1|]. split; [exact H2|]. split.
  - exact (proj1 (@runs_are_deterministic sample_pillow) linux_world used_world _ _
             Hsame (run_status_fst linux_world 0 H1) (run_status_fst used_world 0 H2)).
  - exact (proj2 (@runs_are_deterministic sample_pillow) linux_world _
             (run_status_fst linux_world 0 H1)).
Defined.

(** ** Exact binary64 operations *)

Lemma fexp_eq (x : Z) : fexp prec emax x = Z.max (x - 53) (-1074).
Proof. reflexivity. Qed.

Lemma digits2_pos_bounds (m : positive) :
  2 ^ (Zpos (digits2_pos m) - 1) ≤ Zpos m < 2 ^ Zpos (digits2_pos m).
Proof.
  induction m as [m IH|m IH|]; cbn [digits2_pos].
  - rewrite Pos2Z.inj_succ, Z.pow_succ_r by lia.
    replace (Z.succ (Zpos (digits2_pos m)) - 1) with (Z.succ (Zpos (digits2_pos m) - 1)) by lia.
    rewrite Z.pow_succ_r by lia. lia.
  - rewrite Pos2Z.inj_succ, Z.pow_succ_r by lia.
    replace (Z.succ (Zpos (digits2_pos m)) - 1) with (Z.succ (Zpos (digits2_pos m) - 1)) by lia.
    rewrite Z.pow_succ_r by lia. lia.
  - cbn. lia.
Qed.

(** The number of binary digits is determined by the enclosing powers of 2. *)
Lemma digits2_pos_unique (m : positive) (d : Z) :
  2 ^ (d - 1) ≤ Zpos m < 2 ^ d → Zpos (digits2_pos m) = d.
Proof.
  intros [Hlo Hhi]. pose proof (digits2_pos_bounds m) as [Hlo' Hhi'].
  destruct (Z.lt_trichotomy (Zpos (digits2_pos m)) d) as [Hlt|[Heq|Hgt]]; [|exact Heq|].
  - assert (2 ^ Zpos (digits2_pos m) ≤ 2 ^ (d - 1)) by (apply Z.pow_le_mono_r; lia). lia.
  - assert (0 < d).
    { destruct (Z.le_gt_cases d 0) as [Hd|Hd]; [|exact Hd].
      assert (2 ^ d ≤ 2 ^ 0) by (apply Z.pow_le_mono_r; lia).
      change (2 ^ 0) with 1 in *. lia. }
    assert (2 ^ d ≤ 2 ^ (Zpos (digits2_pos m) - 1)) by (apply Z.pow_le_mono_r; lia). lia.
Qed.

Lemma digits2_pos_shift (c m : positive) (t : Z) :
  0 ≤ t → Zpos m = Zpos c * 2 ^ t →
  Zpos (digits2_pos m) = Zpos (digits2_pos c) + t.
Proof.
  intros Ht Hm. apply digits2_pos_unique. rewrite Hm.
  pose proof (digits2_pos_bounds c) as [Hlo Hhi].
  replace (Zpos (digits2_pos c) + t - 1) with (Zpos (digits2_pos c) - 1 + t) by lia.
  rewrite !Z.pow_add_r by lia.
  assert (0 < 2 ^ t) by (apply Z.pow_pos_nonneg; lia).
  split; [apply Z.mul_le_mono_nonneg_r | apply Z.mul_lt_mono_pos_r]; lia.
Qed.

Lemma digits2_pos_le (c : positive) (n : Z) :
  0 ≤ n → Zpos c < 2 ^ n → Zpos (digits2_pos c) ≤ n.
Proof.
  intros Hn Hc. pose proof (digits2_pos_bounds c) as [Hlo _].
  destruct (Z.le_gt_cases (Zpos (digits2_pos c)) n) as [Hle|Hgt]; [exact Hle|].
  assert (2 ^ n ≤ 2 ^ (Zpos (digits2_pos c) - 1)) by (apply Z.pow_le_mono_r; lia). lia.
Qed.

(** Iterating the right shift, as the rounding functions do. *)
Lemma iter_pos_swap {A : Type} (f : A → A) (p : positive) (x : A) :
  SpecFloat.iter_pos f p (f x) = f (SpecFloat.iter_pos f p x).
Proof.
  revert x. induction p as [p IH|p IH|]; intros x; cbn [SpecFloat.iter_pos].
  - by rewrite !IH.
  - by rewrite !IH.
  - reflexivity.
Qed.

Lemma iter_pos_succ {A : Type} (f : A → A) (p : positive) (x : A) :
  SpecFloat.iter_pos f (Pos.succ p) x = f (SpecFloat.iter_pos f p x).
Proof.
  revert x. induction p as [p IH|p IH|]; intros x.
  - change (Pos.succ p~1) with (Pos.succ p)~0%positive. cbn [SpecFloat.iter_pos].
    by rewrite !IH, !iter_pos_swap.
  - change (Pos.succ p~0) with p~1%positive. cbn [SpecFloat.iter_pos].
    by rewrite !iter_pos_swap.
  - reflexivity.
Qed.

Lemma shr_1_double (m : positive) :
  shr_1 (Build_shr_record (Zpos m~0) false false) = Build_shr_record (Zpos m) false false.
Proof. reflexivity. Qed.

(** Shifting out [k] zero bits loses nothing: no round bit, no sticky bit. *)
Lemma shr_exact (k : positive) (m m' : positive) :
  Zpos m = Zpos m' * 2 ^ Zpos k →
  SpecFloat.iter_pos shr_1 k (Build_shr_record (Zpos m) false false) =
    Build_shr_record (Zpos m') false false.
Proof.
  revert m. induction k as [|k IH] using Pos.peano_ind; intros m Hm.
  - cbn [SpecFloat.iter_pos]. replace m with (m'~0)%positive by lia. reflexivity.
  - rewrite iter_pos_succ.
    rewrite Pos2Z.inj_succ, Z.pow_succ_r in Hm by lia.
    rewrite <- iter_pos_swap.
    assert (Hhalf : ∃ h, m = (h~0)%positive ∧ Zpos h = Zpos m' * 2 ^ Zpos k).
    { assert (0 < 2 ^ Zpos k) by (apply Z.pow_pos_nonneg; lia).
      destruct m as [h|h|]; [exfalso; lia | | exfalso; lia].
      exists h. split; [reflexivity | lia]. }
    destruct Hhalf as (h & -> & Hh).
    rewrite shr_1_double. by apply IH.
Qed.

Lemma shr_nonpos (mrs : shr_record) (e n : Z) : n ≤ 0 → shr mrs e n = (mrs, e).
Proof. intros Hn. destruct n as [|p|p]; [reflexivity | lia | reflexivity]. Qed.

(** A mantissa [c * 2 ^ t] whose odd part [c] has at most 53 bits, at an
    exponent that stays above the subnormal floor, loses no bit when it is
    brought to its canonical exponent. *)
Lemma shr_fexp_exact (m c : positive) (t e : Z) :
  0 ≤ t → Zpos m = Zpos c * 2 ^ t → Zpos c < 2 ^ 53 → -1074 ≤ e + t →
  ∃ M E,
    shr_fexp prec emax (Zpos m) e loc_Exact = (Build_shr_record (Zpos M) false false, E) ∧
    e ≤ E ≤ e + t ∧ Zpos m = Zpos M * 2 ^ (E - e) ∧
    fexp prec emax (Zpos (digits2_pos M) + E) - E ≤ 0.
Proof.
  intros Ht Hm Hc He.
  pose proof (digits2_pos_shift c m t Ht Hm) as Hdm.
  pose proof (digits2_pos_le c 53 ltac:(lia) Hc) as Hdc.
  unfold shr_fexp. cbn [Zdigits2 shr_record_of_loc].
  destruct (fexp prec emax (Zpos (digits2_pos m) + e) - e) as [|k|k] eqn:Hk.
  - exists m, e. cbn [shr]. split; [reflexivity|]. split; [lia|].
    split; [rewrite Z.sub_diag; cbn; lia | lia].
  - assert (Hkt : Zpos k ≤ t) by (rewrite fexp_eq in Hk; lia).
    assert (Hpos : 0 < Zpos c * 2 ^ (t - Zpos k)).
    { apply Z.mul_pos_pos; [lia | apply Z.pow_pos_nonneg; lia]. }
    destruct (Zpos c * 2 ^ (t - Zpos k)) as [|M|M] eqn:HM; [lia | | lia].
    assert (HmM : Zpos m = Zpos M * 2 ^ Zpos k).
    { rewrite Hm, <- HM, <- Z.mul_assoc, <- Z.pow_add_r by lia.
      do 2 f_equal. lia. }
    exists M, (e + Zpos k). cbn [shr].
    rewrite (shr_exact k m M HmM).
    split; [reflexivity|]. split; [lia|].
    split; [by replace (e + Zpos k - e) with (Zpos k) by lia|].
    pose proof (digits2_pos_shift M m (Zpos k) ltac:(lia) HmM) as HdM.
    replace (Zpos (digits2_pos M) + (e + Zpos k)) with (Zpos (digits2_pos m) + e) by lia.
    lia.
  - exists m, e. cbn [shr]. split; [reflexivity|]. split; [lia|].
    split; [rewrite Z.sub_diag; cbn; lia | lia].
Qed.

Lemma binary_round_aux_exact (s : bool) (m c : positive) (t e : Z) :
  0 ≤ t → Zpos m = Zpos c * 2 ^ t → Zpos c < 2 ^ 53 →
  -1074 ≤ e + t → e + t ≤ 971 →
  ∃ M E,
    binary_round_aux prec emax s (Zpos m) e loc_Exact = S754_finite s M E ∧
    e ≤ E ≤ e + t ∧ Zpos m = Zpos M * 2 ^ (E - e).
Proof.
  intros Ht Hm Hc Hlo Hhi.
  destruct (shr_fexp_exact m c t e Ht Hm Hc Hlo) as (M & E & Hshr & HE & HM & Hcanon).
  exists M, E. unfold binary_round_aux. rewrite Hshr.
  cbn [shr_m loc_of_shr_record round_nearest_even].
  unfold shr_fexp at 1. cbn [Zdigits2 shr_record_of_loc].
  rewrite shr_nonpos by exact Hcanon. cbn [shr_m].
  replace (E <=? emax - prec) with true by (symmetry; apply Z.leb_le; unfold emax, prec; lia).
  done.
Qed.

(** The same for a mantissa that is first aligned to the left. *)
Lemma binary_round_exact (s : bool) (m c : positive) (t e : Z) :
  0 ≤ t → Zpos m = Zpos c * 2 ^ t → Zpos c < 2 ^ 53 →
  -1074 ≤ e + t → e + t ≤ 971 →
  ∃ M E,
    binary_round prec emax s m e = S754_finite s M E ∧ E ≤ e + t ∧
    Zpos m * 2 ^ (e - Z.min e E) = Zpos M * 2 ^ (E - Z.min e E).
Proof.
  intros Ht Hm Hc Hlo Hhi. unfold binary_round, shl_align.
  destruct (fexp prec emax (Zpos (digits2_pos m) + e) - e) as [|k|k] eqn:Hk.
  - destruct (binary_round_aux_exact s m c t e) as (M & E & Hr & HE & HM); try done.
    exists M, E. split; [exact Hr|]. split; [lia|].
    replace (Z.min e E) with e by lia. rewrite Z.sub_diag. cbn [Z.pow]. lia.
  - destruct (binary_round_aux_exact s m c t e) as (M & E & Hr & HE & HM); try done.
    exists M, E. split; [exact Hr|]. split; [lia|].
    replace (Z.min e E) with e by lia. rewrite Z.sub_diag. cbn [Z.pow]. lia.
  - set (e' := fexp prec emax (Zpos (digits2_pos m) + e)) in *.
    assert (Hm' : Zpos (Pos.iter xO m k) = Zpos m * 2 ^ Zpos k).
    { change (Pos.iter xO m k) with (shift_pos k m).
      rewrite shift_pos_correct, Z.pow_pos_fold. lia. }
    assert (Hc' : Zpos (Pos.iter xO m k) = Zpos c * 2 ^ (t + Zpos k)).
    { rewrite Hm', Hm, Z.pow_add_r by lia. lia. }
    destruct (binary_round_aux_exact s (Pos.iter xO m k) c (t + Zpos k) e')
      as (M & E & Hr & HE & HM); try lia.
    exists M, E. split; [exact Hr|]. split; [lia|].
    assert (HEe : E = e').
    { pose proof (digits2_pos_shift m (Pos.iter xO m k) (Zpos k) ltac:(lia) Hm') as Hd.
      unfold binary_round_aux in Hr. revert Hr.
      unfold shr_fexp at 1. cbn [Zdigits2 shr_record_of_loc].
      replace (Zpos (digits2_pos (Pos.iter xO m k)) + e') with (Zpos (digits2_pos m) + e + (Zpos k + e' - e)) by lia.
      replace (Zpos k + e' - e) with 0 by lia. rewrite Z.add_0_r. fold e'.
      rewrite Z.sub_diag. cbn [shr shr_m loc_of_shr_record round_nearest_even].
      unfold shr_fexp. cbn [Zdigits2 shr_record_of_loc].
      replace (Zpos (digits2_pos (Pos.iter xO m k)) + e') with (Zpos (digits2_pos m) + e) by lia.
      fold e'. rewrite Z.sub_diag. cbn [shr shr_m].
      destruct (e' <=? emax - prec); [|discriminate]. by intros [= _ <-]. }
    subst E. replace (Z.min e e') with e' by lia.
    rewrite Z.sub_diag in *. cbn [Z.pow] in *.
    replace (e - e') with (Zpos k) by lia. lia.
Qed.

Lemma shl_align_fst (m : positive) (e e' : Z) :
  e' ≤ e → Zpos (shl_align m e e').1 = Zpos m * 2 ^ (e - e').
Proof.
  intros He. unfold shl_align.
  destruct (e' - e) as [|d|d] eqn:Hd; cbn [fst].
  - replace (e - e') with 0 by lia. cbn [Z.pow]. lia.
  - lia.
  - change (Pos.iter xO m d) with (shift_pos d m).
    rewrite shift_pos_correct, Z.pow_pos_fold.
    replace (e - e') with (Zpos d) by lia. lia.
Qed.

Lemma cond_Zopp_mul (s : bool) (a b : Z) : cond_Zopp s a * b = cond_Zopp s (a * b).
Proof. destruct s; cbn [cond_Zopp]; lia. Qed.

Lemma div_core_halve (p : positive) :
  Zpos (digits2_pos p) ≤ 53 →
  SFdiv_core_binary prec emax (Zpos p) 0 2 0 =
    (Zpos p * 2 ^ (54 - Zpos (digits2_pos p)), Zpos (digits2_pos p) - 55, loc_Exact).
Proof.
  intros Hd. pose proof (Pos2Z.is_pos (digits2_pos p)) as Hd0.
  unfold SFdiv_core_binary.
  change (Zdigits2 2) with 2. change (Zdigits2 (Zpos p)) with (Zpos (digits2_pos p)).
  replace (Z.min (fexp prec emax (Zpos (digits2_pos p) + 0 - (2 + 0))) (0 - 0))
    with (Zpos (digits2_pos p) - 55) by (rewrite fexp_eq; lia).
  destruct (0 - 0 - (Zpos (digits2_pos p) - 55)) as [|sh|sh] eqn:Hsh; [lia | | lia].
  rewrite Z.shiftl_mul_pow2 by lia.
  assert (Hsplit : Zpos p * 2 ^ Zpos sh = 2 * (Zpos p * 2 ^ (54 - Zpos (digits2_pos p)))).
  { replace (Zpos sh) with (1 + (54 - Zpos (digits2_pos p))) by lia.
    rewrite Z.pow_add_r by lia. change (2 ^ 1) with 2. lia. }
  pose proof (Z_div_mod (Zpos p * 2 ^ Zpos sh) 2 ltac:(lia)) as Hdiv.
  change IntDef.Z.div_eucl with Z.div_eucl.
  destruct (Z.div_eucl (Zpos p * 2 ^ Zpos sh) 2) as [q r].
  assert (Hr : r = 0) by lia.
  assert (Hq : q = Zpos p * 2 ^ (54 - Zpos (digits2_pos p))) by lia.
  subst r q. reflexivity.
Qed.

(** Halving an integer of at most 53 bits is exact. *)
Lemma halve_exact (s : bool) (p : positive) :
  Zpos p < 2 ^ 53 →
  ∃ M E,
    SFdiv prec emax (S754_finite s p 0) (S754_finite false 2 0) = S754_finite s M E ∧
    E ≤ -1 ∧ Zpos M = Zpos p * 2 ^ (-1 - E).
Proof.
  intros Hp.
  pose proof (digits2_pos_le p 53 ltac:(lia) Hp) as Hd.
  pose proof (Pos2Z.is_pos (digits2_pos p)) as Hd0.
  unfold SFdiv. rewrite (div_core_halve p Hd).
  assert (Hqpos : 0 < Zpos p * 2 ^ (54 - Zpos (digits2_pos p))).
  { apply Z.mul_pos_pos; [lia | apply Z.pow_pos_nonneg; lia]. }
  destruct (Zpos p * 2 ^ (54 - Zpos (digits2_pos p))) as [|mq|mq] eqn:Hq; [lia | | lia].
  destruct (binary_round_aux_exact (xorb s false) mq p (54 - Zpos (digits2_pos p))
              (Zpos (digits2_pos p) - 55)) as (M & E & Hr & HE & HM); try lia.
  rewrite xorb_false_r in Hr.
  exists M, E. split; [rewrite xorb_false_r; exact Hr|]. split; [lia|].
  assert (Hpow : 0 < 2 ^ (E - (Zpos (digits2_pos p) - 55)))
    by (apply Z.pow_pos_nonneg; lia).
  apply (Z.mul_cancel_r _ _ (2 ^ (E - (Zpos (digits2_pos p) - 55)))); [lia|].
  rewrite <- HM, <- Hq, <- Z.mul_assoc, <- Z.pow_add_r by lia.
  do 2 f_equal. lia.
Qed.

Lemma int_truediv_2_exact (n : Z) :
  Z.abs n < 2 ^ 53 → ∃ x, int_truediv n 2 = Ret x ∧ denotes x n (-1).
Proof.
  intros Hn. unfold int_truediv. change (2 =? 0) with false. cbv iota.
  destruct n as [|p|p]; cbn [int_operand].
  - exists (S754_zero false). split; reflexivity.
  - destruct (halve_exact false p) as (M & E & Hdiv & HE & HM); [lia|].
    change (int_operand 2) with (S754_finite false 2 0). rewrite Hdiv.
    eexists. split; [reflexivity|]. cbn [denotes cond_Zopp].
    replace (Z.min E (-1)) with E by lia. rewrite Z.sub_diag. cbn [Z.pow]. lia.
  - destruct (halve_exact true p) as (M & E & Hdiv & HE & HM); [lia|].
    change (int_operand 2) with (S754_finite false 2 0). rewrite Hdiv.
    eexists. split; [reflexivity|]. cbn [denotes cond_Zopp].
    replace (Z.min E (-1)) with E by lia. rewrite Z.sub_diag. cbn [Z.pow]. lia.
Qed.

Lemma float_of_int_40 : float_of_int 40 = Ret (S754_finite false 5629499534213120 (-47)).
Proof. reflexivity. Qed.

(** Two mantissas of one dyadic number, read at a common exponent [j]. *)
Lemma realign (q M C ez E j : Z) :
  ez ≤ j → E ≤ j → q = C * 2 ^ (j - ez) →
  q * 2 ^ (ez - Z.min ez E) = M * 2 ^ (E - Z.min ez E) →
  M = C * 2 ^ (j - E).
Proof.
  intros Hez HE Hq HM.
  destruct (Z.le_gt_cases ez E) as [Hle|Hgt].
  - replace (Z.min ez E) with ez in HM by lia.
    rewrite Z.sub_diag, Z.pow_0_r, Z.mul_1_r in HM.
    assert (Hp : 0 < 2 ^ (E - ez)) by (apply Z.pow_pos_nonneg; lia).
    assert (Hsplit : 2 ^ (j - ez) = 2 ^ (j - E) * 2 ^ (E - ez)).
    { rewrite <- Z.pow_add_r by lia. f_equal. lia. }
    apply (Z.mul_cancel_r _ _ (2 ^ (E - ez))); [lia|].
    rewrite <- HM, Hq, Hsplit. lia.
  - replace (Z.min ez E) with E in HM by lia.
    rewrite Z.sub_diag, Z.pow_0_r, Z.mul_1_r in HM.
    assert (Hsplit : 2 ^ (j - E) = 2 ^ (j - ez) * 2 ^ (ez - E)).
    { rewrite <- Z.pow_add_r by lia. f_equal. lia. }
    rewrite <- HM, Hq, Hsplit. lia.
Qed.

(** Taking 40 from a half-integer is exact while the result has at most 53
    bits. *)
Lemma float_sub_int_40_exact (x : float) (n : Z) :
  denotes x n (-1) → Z.abs (n - 80) < 2 ^ 53 →
  ∃ y, float_sub_int x 40 = Ret y ∧ denotes y (n - 80) (-1).
Proof.
  intros Hx Hn. unfold float_sub_int. rewrite float_of_int_40, outcome_bind_ret.
  change (mret ?a) with (Ret a). eexists. split; [reflexivity|].
  destruct x as [sx|sx| |s M E]; cbn [denotes] in Hx; try contradiction.
  - (* 0 - 40 *)
    subst n. destruct sx; vm_compute; reflexivity.
  - unfold SFsub. set (ez := Z.min E (-47)).
    assert (Hez : ez ≤ E ∧ ez ≤ -47) by (unfold ez; lia).
    rewrite !shl_align_fst by lia.
    assert (Hu : 0 < 2 ^ (-1 - ez)) by (apply Z.pow_pos_nonneg; lia).
    assert (HD : cond_Zopp s (Zpos M * 2 ^ (E - ez))
                 - cond_Zopp false (5629499534213120 * 2 ^ (-47 - ez))
                 = (n - 80) * 2 ^ (-1 - ez)).
    { cbn [cond_Zopp]. rewrite <- cond_Zopp_mul.
      assert (H40 : 5629499534213120 * 2 ^ (-47 - ez) = 80 * 2 ^ (-1 - ez)).
      { replace (-1 - ez) with (46 + (-47 - ez)) by lia.
        rewrite Z.pow_add_r by lia. change (2 ^ 46) with 70368744177664. lia. }
      rewrite H40.
      assert (HM : cond_Zopp s (Zpos M) * 2 ^ (E - ez) = n * 2 ^ (-1 - ez)).
      { set (mn := Z.min E (-1)) in Hx.
        assert (Hmn : ez ≤ mn ∧ mn ≤ E ∧ mn ≤ -1) by (unfold mn; lia).
        replace (E - ez) with ((E - mn) + (mn - ez)) by lia.
        replace (-1 - ez) with ((-1 - mn) + (mn - ez)) by lia.
        rewrite !Z.pow_add_r, !Z.mul_assoc, Hx by lia. reflexivity. }
      rewrite HM. lia. }
    rewrite HD.
    destruct ((n - 80) * 2 ^ (-1 - ez)) as [|q|q] eqn:Hq; cbn [binary_normalize].
    + cbn [denotes]. nia.
    + assert (Hn80 : 0 < n - 80) by nia.
      destruct (n - 80) as [|c|c] eqn:Hc; [lia | | lia].
      destruct (binary_round_exact false q c (-1 - ez) ez) as (M' & E' & Hr & HE & HM');
        try lia.
      rewrite Hr. cbn [denotes cond_Zopp].
      replace (Z.min E' (-1)) with E' by lia. rewrite Z.sub_diag, Z.pow_0_r, Z.mul_1_r.
      apply (realign (Zpos q) (Zpos M') (Zpos c) ez E' (-1)); lia.
    + assert (Hn80 : n - 80 < 0) by nia.
      destruct (n - 80) as [|c|c] eqn:Hc; [lia | lia | ].
      assert (Hq' : Zpos q = Zpos c * 2 ^ (-1 - ez)) by lia.
      destruct (binary_round_exact true q c (-1 - ez) ez) as (M' & E' & Hr & HE & HM');
        try lia.
      rewrite Hr. cbn [denotes cond_Zopp].
      replace (Z.min E' (-1)) with E' by lia. rewrite Z.sub_diag, Z.pow_0_r, Z.mul_1_r.
      pose proof (realign (Zpos q) (Zpos M') (Zpos c) ez E' (-1)
                    ltac:(lia) ltac:(lia) Hq' HM') as Hre.
      lia.
Qed.

(** A float that is exactly [z / 2] has that rational value. *)
Lemma denotes_half_value (x : float) (z : Z) :
  denotes x z (-1) → ∃ q, float_value x = Some q ∧ (q == inject_Z z / 2)%Q.
Proof.
  intros Hx. destruct x as [sx|sx| |s M E]; cbn [denotes] in Hx; try contradiction.
  - subst z. exists 0%Q. split; reflexivity.
  - cbn [float_value]. eexists. split; [reflexivity|].
    destruct (Z.leb_spec 0 E) as [HE|HE].
    + replace (Z.min E (-1)) with (-1) in Hx by lia.
      change (-1 - -1) with 0 in Hx. cbn [Z.pow] in Hx.
      replace (E - -1) with (E + 1) in Hx by lia.
      rewrite Z.pow_add_r in Hx by lia. change (2 ^ 1) with 2 in Hx.
      unfold Qeq, Qdiv, Qmult, Qinv, inject_Z. cbn [Qnum Qden]. lia.
    + replace (Z.min E (-1)) with E in Hx by lia.
      rewrite Z.sub_diag in Hx. cbn [Z.pow] in Hx.
      unfold Qeq, Qdiv, Qmult, Qinv, inject_Z. cbn [Qnum Qden].
      rewrite Pos2Z.inj_pow, Z2Pos.id by lia.
      replace (- E) with (1 + (-1 - E)) by lia.
      rewrite Z.pow_add_r by lia. change (2 ^ 1) with 2. lia.
Qed.

(** The two offsets of lines 52-53 are computed without rounding for every
    bounding box that is less than [2 ^ 52] pixels wide and high. *)
Lemma text_position_exact (x0 y0 x1 y1 : Z) :
  Z.abs (x1 - x0) < 2 ^ 52 → Z.abs (y1 - y0) < 2 ^ 52 →
  ∃ x y qx qy,
    text_position (x0, y0, x1, y1) = Ret (x, y) ∧
    float_value x = Some qx ∧
    (qx == (inject_Z width - inject_Z (x1 - x0)) / 2)%Q ∧
    float_value y = Some qy ∧
    (qy == (inject_Z height - inject_Z (y1 - y0)) / 2 - 40)%Q.
Proof.
  intros Hw Hh. unfold text_position.
  change (2 ^ 52) with 4503599627370496 in *.
  destruct (int_truediv_2_exact (width - (x1 - x0))) as (x & Hx & Hdx).
  { change (2 ^ 53) with 9007199254740992. unfold width. lia. }
  destruct (int_truediv_2_exact (height - (y1 - y0))) as (half & Hhalf & Hdh).
  { change (2 ^ 53) with 9007199254740992. unfold height. lia. }
  destruct (float_sub_int_40_exact half (height - (y1 - y0)) Hdh) as (y & Hy & Hdy).
  { change (2 ^ 53) with 9007199254740992. unfold height. lia. }
  destruct (denotes_half_value x _ Hdx) as (qx & Hqx & Hex).
  destruct (denotes_half_value y _ Hdy) as (qy & Hqy & Hey).
  exists x, y, qx, qy.
  rewrite Hx, outcome_bind_ret, Hhalf, outcome_bind_ret, Hy, outcome_bind_ret.
  split; [reflexivity|]. split; [exact Hqx|]. split.
  { rewrite Hex. unfold Z.sub at 1. rewrite inject_Z_plus, inject_Z_opp. reflexivity. }
  split; [exact Hqy|].
  rewrite Hey. unfold Z.sub at 1 2.
  rewrite !inject_Z_plus, !inject_Z_opp. change (inject_Z 80) with 80%Q. field.
Qed.

(** ** Claim about the placement of the text *)

(** C7. With [f] the resolved font and (x0, y0, x1, y1) the bounding box
    measured for "MB" at the origin in that font, the script draws the text
    at the position (x, y) whose binary64 coordinates are exactly
    (1024 - w) / 2 and (1024 - h) / 2 - 40, for w = x1 - x0 and h = y1 - y0,
    and then saves and reports; the divisions are true divisions, and no
    rounding occurs for boxes below 2^52 pixels. *)
Theorem text_is_centered `{Pillow} (w : world) (f : font) (x0 y0 x1 y1 : Z) :
  (resolve_font w).1 = Ret f →
  textbbox (0, 0) "MB" f = Ret (x0, y0, x1, y1) →
  Z.abs (x1 - x0) < 2 ^ 52 → Z.abs (y1 - y0) < 2 ^ 52 →
  ∃ im x y qx qy,
    gradient_canvas = Ret im ∧
    main w =
      (image ← lift (draw_text im (x, y) "MB" f (0, 0, 0));
       Image_save image "build/icon-source.png" "PNG";; report) w ∧
    float_value x = Some qx ∧ (qx == (1024 - inject_Z (x1 - x0)) / 2)%Q ∧
    float_value y = Some qy ∧ (qy == (1024 - inject_Z (y1 - y0)) / 2 - 40)%Q.
Proof.
  intros Hf Hbbox Hw Hh.
  destruct gradient_canvas_spec as (im & Him & _).
  destruct (text_position_exact x0 y0 x1 y1 Hw Hh)
    as (x & y & qx & qy & Hpos & Hqx & Hex & Hqy & Hey).
  exists im, x, y, qx, qy.
  split; [exact Him|]. split.
  { rewrite (main_unfold im w Him), Hf, finish_unfold.
    change text with "MB". rewrite Hbbox, Hpos. reflexivity. }
  split; [exact Hqx|]. split; [exact Hex|]. split; [exact Hqy | exact Hey].
Qed.

Lemma text_is_centered_witness :
  (@resolve_font sample_pillow linux_world).1 = Ret 420 ∧
  @textbbox sample_pillow (0, 0) "MB" 420 = Ret (0, 3, 840, 420) ∧
  ∃ im x y qx qy,
    gradient_canvas = Ret im ∧
    @main sample_pillow linux_world =
      (image ← lift (@draw_text sample_pillow im (x, y) "MB" 420 (0, 0, 0));
       @Image_save sample_pillow image "build/icon-source.png" "PNG";; report)
        linux_world ∧
    float_value x = Some qx ∧ (qx == (1024 - inject_Z (840 - 0)) / 2)%Q ∧
    float_value y = Some qy ∧ (qy == (1024 - inject_Z (420 - 3)) / 2 - 40)%Q.
Proof.
  split; [reflexivity|]. split; [reflexivity|].
  apply (@text_is_centered sample_pillow linux_world 420 0 3 840 420);
    reflexivity.
Defined.

(** * Further properties of the script *)

(** ** The bands of the gradient *)

Lemma painted_iff_integer (x y : Z) (c : color) :
  0 ≤ x < width → 0 ≤ y < height → painted (x, y) c ↔ c = integer_color y.
Proof.
  intros Hx Hy. split.
  - intros Hc. exact (painted_inj _ _ _ Hc (painted_integer x y Hx Hy)).
  - intros ->. by apply painted_integer.
Qed.

Lemma green_steps (y : Z) :
  0 ≤ y →
  1024 * ((51 * y + 1023) / 1024) ≤ 51 * y + 1023 < 1024 * ((51 * y + 1023) / 1024) + 1024.
Proof.
  intros Hy.
  pose proof (Z.div_mod (51 * y + 1023) 1024 ltac:(lia)).
  pose proof (Z.mod_pos_bound (51 * y + 1023) 1024 ltac:(lia)). lia.
Qed.

(** X1. The top row is the only light-orange one, and the dark end point is
    reached early: a pixel of the canvas holds (255,85,0) exactly when its
    row index is at least 1004, and (255,136,0) exactly when it is 0. *)
Theorem gradient_end_bands (x y : Z) :
  0 ≤ x < width → 0 ≤ y < height →
  (painted (x, y) dark_orange ↔ 1004 ≤ y) ∧
  (painted (x, y) light_orange ↔ y = 0).
Proof.
  intros Hx Hy. rewrite !(painted_iff_integer x y) by done.
  pose proof (green_steps y ltac:(lia)) as Hq. unfold height in Hy.
  unfold integer_color, dark_orange, light_orange.
  split; (split; [intros [= Hg] | intros Hrow; do 2 f_equal]); lia.
Qed.

Lemma gradient_end_bands_witness :
  0 ≤ 17 < width ∧ 0 ≤ 1004 < height ∧
  (painted (17, 1004) dark_orange ↔ 1004 ≤ 1004) ∧
  (painted (17, 1004) light_orange ↔ 1004 = 0).
Proof.
  assert (Hx : 0 ≤ 17 < width) by (unfold width; lia).
  assert (Hy : 0 ≤ 1004 < height) by (unfold height; lia).
  split; [exact Hx|]. split; [exact Hy|].
  exact (gradient_end_bands 17 1004 Hx Hy).
Defined.

(** X2. The gradient has no jump: from one row to the next the green
    channel stays or drops by exactly one, and red and blue do not move. *)
Theorem gradient_is_smooth (x x' y : Z) :
  0 ≤ x < width → 0 ≤ x' < width → 0 ≤ y → y + 1 < height →
  ∃ c c', painted (x, y) c ∧ painted (x', y + 1) c' ∧
    item0 c' = item0 c ∧ item2 c' = item2 c ∧
    0 ≤ item1 c - item1 c' ≤ 1.
Proof.
  intros Hx Hx' Hy Hy'.
  exists (integer_color y), (integer_color (y + 1)).
  split; [apply painted_integer; [done | lia]|].
  split; [apply painted_integer; [done | lia]|].
  split; [reflexivity|]. split; [reflexivity|].
  pose proof (green_steps y ltac:(lia)).
  pose proof (green_steps (y + 1) ltac:(lia)).
  unfold integer_color, item1. cbn [fst snd]. lia.
Qed.

Lemma gradient_is_smooth_witness :
  0 ≤ 0 < width ∧ 0 ≤ 1023 < width ∧ 0 ≤ 20 ∧ 20 + 1 < height ∧
  ∃ c c', painted (0, 20) c ∧ painted (1023, 20 + 1) c' ∧
    item0 c' = item0 c ∧ item2 c' = item2 c ∧
    0 ≤ item1 c - item1 c' ≤ 1.
Proof.
  assert (Hx : 0 ≤ 0 < width) by (unfold width; lia).
  assert (Hx' : 0 ≤ 1023 < width) by (unfold width; lia).
  assert (Hy : 0 ≤ 20) by lia.
  assert (Hy' : 20 + 1 < height) by (unfold height; lia).
  split; [exact Hx|]. split; [exact Hx'|]. split; [exact Hy|]. split; [exact Hy'|].
  exact (gradient_is_smooth 0 1023 20 Hx Hx' Hy Hy').
Defined.

(** X3. The gradient loop keeps the canvas in shape and covers it: after
    line 26 the canvas has a pixel exactly at the coordinates of the
    1024 x 1024 square (the end point (1024, y) of each line falls outside
    and is clipped), and no pixel is left in the black of the fresh canvas. *)
Theorem gradient_covers_canvas :
  ∃ im, gradient_canvas = Ret im ∧
    (∀ x y, is_Some (getpixel im (x, y)) ↔ 0 ≤ x < 1024 ∧ 0 ≤ y < 1024) ∧
    (∀ x y, getpixel im (x, y) ≠ Some (0, 0, 0)).
Proof.
  destruct gradient_canvas_spec as (im & Him & _ & Hsize & Hws & Hpx).
  exists im. split; [exact Him|]. split.
  - intros x y. rewrite (well_sized_getpixel im x y Hws), Hsize. reflexivity.
  - intros x y Hblack.
    assert (Hin : 0 ≤ x < width ∧ 0 ≤ y < height).
    { pose proof (well_sized_getpixel im x y Hws) as Hiff.
      rewrite Hsize in Hiff. apply Hiff. rewrite Hblack. by eexists. }
    destruct Hin as [Hx Hy].
    rewrite (Hpx x y Hx Hy), (formula_color_integer y Hy) in Hblack.
    unfold integer_color in Hblack. discriminate Hblack.
Qed.

(** ** Font resolution, its errors and its single attempt *)

(** X4. Only the first candidate that exists is ever loaded: when loading
    it raises, the handler takes the default font [d], whatever the later
    candidates are, even one that exists and would load. *)
Theorem first_existing_font_is_the_only_attempt `{Pillow}
    (w : world) (path : string) (e : exn) (d : font) :
  List.find (exists_in w) font_paths = Some path →
  (truetype path 420 w).1 = Raise e →
  load_default = Ret d →
  resolve_font w = (Ret d, w).
Proof.
  intros Hfind Hload Hd.
  rewrite (surjective_pairing (resolve_font w)).
  rewrite resolve_font_world, resolve_font_outcome, Hfind, Hload, Hd. reflexivity.
Qed.

Lemma first_existing_font_is_the_only_attempt_witness :
  List.find (exists_in mac_dir_world) font_paths
    = Some "/System/Library/Fonts/Helvetica.ttc" ∧
  (@truetype sample_pillow "/System/Library/Fonts/Helvetica.ttc" 420 mac_dir_world).1
    = Raise OSError ∧
  (@truetype sample_pillow "/usr/share/fonts/truetype/dejavu/DejaVuSans-Bold.ttf" 420
     mac_dir_world).1 = Ret 420 ∧
  @load_default sample_pillow = Ret 10 ∧
  @resolve_font sample_pillow mac_dir_world = (Ret 10, mac_dir_world).
Proof.
  assert (Hfind : List.find (exists_in mac_dir_world) font_paths
                  = Some "/System/Library/Fonts/Helvetica.ttc")
    by (vm_compute; reflexivity).
  assert (Hload : (@truetype sample_pillow "/System/Library/Fonts/Helvetica.ttc" 420
                     mac_dir_world).1 = Raise OSError)
    by (vm_compute; reflexivity).
  split; [exact Hfind|]. split; [exact Hload|].
  split; [vm_compute; reflexivity|]. split; [reflexivity|].
  exact (@first_existing_font_is_the_only_attempt sample_pillow mac_dir_world
           _ OSError 10 Hfind Hload eq_refl).
Defined.

(** X5. Font resolution raises exactly the error of the default font, and
    only when that font was needed: it ends with exception [e] if and only
    if [ImageFont.load_default()] raises [e] and no candidate was loaded
    (none exists, or the first that exists failed to load).  A candidate
    that loads is returned without the default font being consulted. *)
Theorem font_resolution_error `{Pillow} (w : world) (e : exn) :
  (resolve_font w).1 = Raise e ↔
    load_default = Raise e ∧
    ∀ path f, List.find (exists_in w) font_paths = Some path →
              (truetype path 420 w).1 ≠ Ret f.
Proof.
  rewrite resolve_font_outcome.
  destruct (List.find (exists_in w) font_paths) as [path|].
  - destruct (truetype path 420 w).1 as [f|e'] eqn:Hload.
    + split; [intros [=]|].
      intros [_ Hnone]. exfalso. exact (Hnone path f eq_refl Hload).
    + split.
      * intros Hd. split; [exact Hd|]. intros p f [= <-]. rewrite Hload. intros [=].
      * intros [Hd _]. exact Hd.
  - split.
    + intros Hd. split; [exact Hd|]. intros p f [=].
    + intros [Hd _]. exact Hd.
Qed.

(** ** What a run changes *)

Section RunFacts.
Context `{Pillow}.

(** Every exception of the script is raised before the first write. *)
Lemma main_raise_world (w w' : world) (e : exn) :
  main w = (Raise e, w') → w' = w.
Proof.
  destruct gradient_canvas_spec as (im & Him & _).
  rewrite (main_unfold im w Him).
  destruct (resolve_font w).1 as [f|e1]; [|by intros [= _ <-]].
  rewrite finish_unfold.
  destruct (textbbox (0, 0) text f) as [bbox|e1]; [|by intros [= _ <-]].
  destruct (text_position bbox) as [xy|e1]; [|by intros [= _ <-]].
  rewrite draw_and_save_unfold.
  destruct (draw_text im xy text f (0, 0, 0)) as [im'|e1]; [|by intros [= _ <-]].
  destruct (decide ("build" ∈ dirs w)) as [Hdir|Hdir].
  - destruct (decide (output_path ∈ dirs w)) as [Hout|Hout].
    + rewrite save_and_report_directory by done. by intros [= _ <-].
    + rewrite save_and_report_ok by done. intros [=].
  - rewrite save_and_report_missing_dir by done. by intros [= _ <-].
Qed.

Lemma run_cases (w : world) :
  (run w = (1, w)) ∨
  (∃ w', run w = (0, w') ∧ main w = (Ret tt, w')).
Proof.
  unfold run. destruct (main w) as [[[]|e] w'] eqn:Hmain; cbn [fst snd exit_status].
  - right. exists w'. split; reflexivity.
  - left. apply main_raise_world in Hmain. by subst w'.
Qed.

Lemma run_frame (w : world) :
  dirs (run w).2 = dirs w ∧
  ∀ path, path ≠ output_path → files (run w).2 !! path = files w !! path.
Proof.
  destruct (run_cases w) as [Hfail|(w' & Hok & Hmain)].
  - rewrite Hfail. split; [reflexivity|]. intros path _. reflexivity.
  - rewrite Hok. cbn [snd].
    apply main_success_inv in Hmain
      as (im & f & bbox & xy & im' & _ & _ & _ & _ & _ & _ & _ & ->).
    cbn [files dirs]. split; [reflexivity|].
    intros path Hpath. apply lookup_insert_ne. intros Heq. apply Hpath.
    symmetry. exact Heq.
Qed.

End RunFacts.



(** X7. Whatever its outcome, a run creates and removes no directory and
    leaves every file other than [build/icon-source.png] as it was. *)
Theorem run_touches_the_icon_only `{Pillow} (w : world) :
  dirs (run w).2 = dirs w ∧
  ∀ path, path ≠ "build/icon-source.png" →
    files (run w).2 !! path = files w !! path.
Proof. exact (run_frame w). Qed.

(** X8. A run that ends with status 0 has appended five lines to the
    standard output, in this order: the confirmation that names the output
    path, the heading after an empty line, and the three numbered steps. *)
Theorem successful_run_reports `{Pillow} (w w' : world) :
  run w = (0, w') →
  stdout w' = stdout w ++
    [ "✅ Icon saved to build/icon-source.png";
      newline +:+ "Next steps:";
      "1. Install electron-icon-builder: npm install -g electron-icon-builder";
      "2. Generate icons: electron-icon-builder --input=build/icon-source.png --output=build";
      "3. This will create icon.icns (macOS), icon.ico (Windows), and icon.png (Linux)" ].
Proof.
  intros Hrun. apply run_status_0, main_success_inv in Hrun
    as (im & f & bbox & xy & im' & _ & _ & _ & _ & _ & _ & _ & ->).
  reflexivity.
Qed.

Lemma successful_run_reports_witness :
  (@run sample_pillow used_world).1 = 0 ∧
  stdout (@run sample_pillow used_world).2 = "earlier output" ::
    [ "✅ Icon saved to build/icon-source.png";
      newline +:+ "Next steps:";
      "1. Install electron-icon-builder: npm install -g electron-icon-builder";
      "2. Generate icons: electron-icon-builder --input=build/icon-source.png --output=build";
      "3. This will create icon.icns (macOS), icon.ico (Windows), and icon.png (Linux)" ].
Proof.
  assert (Hstatus : (@run sample_pillow used_world).1 = 0) by (vm_compute; reflexivity).
  split; [exact Hstatus|].
  exact (@successful_run_reports sample_pillow used_world _
           (run_status_fst used_world 0 Hstatus)).
Defined.


(** X10. Fonts are inputs only: after any run, successful or not, font
    resolution gives what it gave before. *)
Theorem run_keeps_font_resolution `{Pillow} (w : world) :
  (resolve_font (run w).2).1 = (resolve_font w).1.
Proof.
  apply resolve_font_agree. intros path Hpath.
  destruct (run_frame w) as [Hdirs Hfiles].
  rewrite Hdirs. split; [|reflexivity].
  apply Hfiles. intros ->. by apply output_path_not_font.
Qed.

(** ** The text over the gradient *)

Lemma getpixel_putpixel_ne (im : image) (xy xy' : Z * Z) (c : color) :
  xy ≠ xy' → getpixel (putpixel im xy c) xy' = getpixel im xy'.
Proof.
  destruct xy as [x y], xy' as [x' y']. intros Hne.
  unfold putpixel. cbn [fst snd].
  destruct (decide (0 ≤ x ∧ 0 ≤ y)) as [Hxy|Hxy];
    [rewrite bool_decide_eq_true_2 by done | by rewrite bool_decide_eq_false_2].
  unfold getpixel. cbn [fst snd im_rows].
  case_bool_decide as Hxy'; [|reflexivity].
  destruct (decide (y' = y)) as [->|Hy].
  - rewrite list_lookup_alter_eq.
    destruct (im_rows im !! Z.to_nat y) as [row|]; cbn; [|reflexivity].
    apply list_lookup_insert_ne. intros Heq. apply Hne. f_equal. lia.
  - rewrite list_lookup_alter_ne by lia. reflexivity.
Qed.

Lemma getpixel_foldl_putpixel (px : list (Z * Z * color)) (im : image) (xy : Z * Z) :
  xy ∉ (λ p, (p.1.1, p.1.2)) <$> px →
  getpixel (foldl (λ im' p, putpixel im' (p.1.1, p.1.2) p.2) im px) xy = getpixel im xy.
Proof.
  revert im. induction px as [|p px IH]; intros im Hnot; [reflexivity|].
  cbn [foldl]. rewrite fmap_cons, not_elem_of_cons in Hnot.
  destruct Hnot as [Hp Hpx].
  rewrite IH by exact Hpx. apply getpixel_putpixel_ne. intros Heq. apply Hp.
  symmetry. exact Heq.
Qed.

(** X11. The text is drawn over the finished gradient: in the image a
    successful run saves, every pixel of the canvas that the rendering of
    "MB" did not touch still holds the gradient colour of its row. *)
Theorem saved_icon_is_gradient_under_text `{Pillow} (w w' : world) :
  run w = (0, w') →
  ∃ im im' f xy px,
    gradient_canvas = Ret im ∧
    text_pixels im xy "MB" f (0, 0, 0) = Ret px ∧
    files w' !! "build/icon-source.png" = Some (encode "PNG" im') ∧
    ∀ x y, 0 ≤ x < 1024 → 0 ≤ y < 1024 →
      ((x, y) ∉ (λ p, (p.1.1, p.1.2)) <$> px) →
      getpixel im' (x, y) = Some (formula_color y).
Proof.
  intros Hrun. apply run_status_0, main_success_inv in Hrun
    as (im & f & bbox & xy & im' & Him & _ & _ & _ & Hdraw & _ & _ & ->).
  destruct gradient_canvas_spec as (im0 & Him0 & _ & _ & _ & Hpx).
  assert (im0 = im) as -> by (rewrite Him0 in Him; by injection Him).
  unfold draw_text in Hdraw.
  apply outcome_bind_inv in Hdraw as (px & Htext & [= <-]).
  eexists im, _, f, xy, px.
  split; [exact Him|]. split; [exact Htext|].
  split; [cbn [files]; apply lookup_insert_eq|].
  intros x y Hx Hy Hnot.
  rewrite getpixel_foldl_putpixel by exact Hnot. by apply Hpx.
Qed.

Lemma saved_icon_is_gradient_under_text_witness :
  (@run sample_pillow build_world).1 = 0 ∧
  ∃ im im' f xy px,
    gradient_canvas = Ret im ∧
    @text_pixels sample_pillow im xy "MB" f (0, 0, 0) = Ret px ∧
    files (@run sample_pillow build_world).2 !! "build/icon-source.png"
      = Some (@encode sample_pillow "PNG" im') ∧
    ∀ x y, 0 ≤ x < 1024 → 0 ≤ y < 1024 →
      ((x, y) ∉ (λ p, (p.1.1, p.1.2)) <$> px) →
      getpixel im' (x, y) = Some (formula_color y).
Proof.
  assert (Hstatus : (@run sample_pillow build_world).1 = 0) by (vm_compute; reflexivity).
  split; [exact Hstatus|].
  exact (@saved_icon_is_gradient_under_text sample_pillow build_world _
           (run_status_fst build_world 0 Hstatus)).
Defined.

(** ** Placement without clamping *)

Lemma half_negative (q : Q) (z : Z) :
  (q == inject_Z z / 2)%Q → (q < 0)%Q ↔ z < 0.
Proof.
  intros ->. unfold Qlt, Qdiv, Qmult, Qinv, inject_Z. cbn [Qnum Qden]. lia.
Qed.

(** X12. The placement is not clamped to the canvas.  For a bounding box
    below 2^52 pixels the two offsets are computed without an exception;
    the horizontal one is negative exactly when the text is wider than the
    canvas, the vertical one exactly when the text is more than 944 pixels
    high, and both boxes of size (1024, 944) are placed at (0, 0). *)
Theorem placement_is_not_clamped (x0 y0 x1 y1 : Z) :
  Z.abs (x1 - x0) < 2 ^ 52 → Z.abs (y1 - y0) < 2 ^ 52 →
  ∃ x y qx qy,
    text_position (x0, y0, x1, y1) = Ret (x, y) ∧
    float_value x = Some qx ∧ float_value y = Some qy ∧
    ((qx < 0)%Q ↔ 1024 < x1 - x0) ∧ ((qy < 0)%Q ↔ 944 < y1 - y0) ∧
    (x1 - x0 = 1024 → (qx == 0)%Q) ∧ (y1 - y0 = 944 → (qy == 0)%Q).
Proof.
  intros Hw Hh.
  destruct (text_position_exact x0 y0 x1 y1 Hw Hh)
    as (x & y & qx & qy & Hpos & Hqx & Hex & Hqy & Hey).
  exists x, y, qx, qy.
  split; [exact Hpos|]. split; [exact Hqx|]. split; [exact Hqy|].
  assert (Hex' : (qx == inject_Z (1024 - (x1 - x0)) / 2)%Q).
  { rewrite Hex. unfold Z.sub at 2. rewrite inject_Z_plus, inject_Z_opp. reflexivity. }
  assert (Hey' : (qy == inject_Z (944 - (y1 - y0)) / 2)%Q).
  { rewrite Hey. unfold Z.sub at 2. rewrite inject_Z_plus, inject_Z_opp.
    change (inject_Z height) with 1024%Q. change (inject_Z 944) with 944%Q. field. }
  split; [rewrite (half_negative qx _ Hex'); lia|].
  split; [rewrite (half_negative qy _ Hey'); lia|].
  split.
  - intros Heq. rewrite Hex', Heq. reflexivity.
  - intros Heq. rewrite Hey', Heq. reflexivity.
Qed.

Lemma placement_is_not_clamped_witness :
  Z.abs (1500 - 0) < 2 ^ 52 ∧ Z.abs (1000 - 0) < 2 ^ 52 ∧
  ∃ x y qx qy,
    text_position (0, 0, 1500, 1000) = Ret (x, y) ∧
    float_value x = Some qx ∧ float_value y = Some qy ∧
    ((qx < 0)%Q ↔ 1024 < 1500 - 0) ∧ ((qy < 0)%Q ↔ 944 < 1000 - 0) ∧
    (1500 - 0 = 1024 → (qx == 0)%Q) ∧ (1000 - 0 = 944 → (qy == 0)%Q).
Proof.
  assert (Hw : Z.abs (1500 - 0) < 2 ^ 52) by reflexivity.
  assert (Hh : Z.abs (1000 - 0) < 2 ^ 52) by reflexivity.
  split; [exact Hw|]. split; [exact Hh|].
  exact (placement_is_not_clamped 0 0 1500 1000 Hw Hh).
Defined.

(** X13. The offsets come from true division, not floor division: for a
    bounding box (below 2^52 pixels) of odd width the horizontal offset is
    no whole number of pixels, and likewise the vertical offset for an odd
    height; each lies exactly half a pixel above the floor-division value. *)
Theorem placement_keeps_half_pixels (x0 y0 x1 y1 : Z) :
  Z.abs (x1 - x0) < 2 ^ 52 → Z.abs (y1 - y0) < 2 ^ 52 →
  ∃ x y qx qy,
    text_position (x0, y0, x1, y1) = Ret (x, y) ∧
    float_value x = Some qx ∧ float_value y = Some qy ∧
    (Z.odd (x1 - x0) = true →
       (qx == inject_Z ((1024 - (x1 - x0)) / 2) + 1 / 2)%Q) ∧
    (Z.odd (y1 - y0) = true →
       (qy == inject_Z ((1024 - (y1 - y0)) / 2 - 40) + 1 / 2)%Q).
Proof.
  intros Hw Hh.
  destruct (text_position_exact x0 y0 x1 y1 Hw Hh)
    as (x & y & qx & qy & Hpos & Hqx & Hex & Hqy & Hey).
  exists x, y, qx, qy.
  split; [exact Hpos|]. split; [exact Hqx|]. split; [exact Hqy|].
  assert (Hodd : ∀ n, Z.odd n = true → 1024 - n = 2 * ((1024 - n) / 2) + 1).
  { intros n Hn. apply Z.odd_spec in Hn as [k ->].
    pose proof (Z.div_mod (1024 - (2 * k + 1)) 2 ltac:(lia)).
    pose proof (Z.mod_pos_bound (1024 - (2 * k + 1)) 2 ltac:(lia)). lia. }
  split.
  - intros Hn. specialize (Hodd _ Hn).
    assert (Hex' : (qx == inject_Z (1024 - (x1 - x0)) / 2)%Q).
    { rewrite Hex. unfold Z.sub at 2. rewrite inject_Z_plus, inject_Z_opp. reflexivity. }
    rewrite Hex'. set (k := (1024 - (x1 - x0)) / 2) in *. rewrite Hodd.
    unfold Qeq, Qplus, Qdiv, Qmult, Qinv, inject_Z. cbn [Qnum Qden]. lia.
  - intros Hn. specialize (Hodd _ Hn).
    assert (Hey' : (qy == inject_Z (1024 - (y1 - y0)) / 2 - 40)%Q).
    { rewrite Hey. unfold Z.sub at 2. rewrite inject_Z_plus, inject_Z_opp. reflexivity. }
    rewrite Hey'. set (k := (1024 - (y1 - y0)) / 2) in *. rewrite Hodd.
    unfold Qeq, Qminus, Qplus, Qopp, Qdiv, Qmult, Qinv, inject_Z. cbn [Qnum Qden]. lia.
Qed.

Lemma placement_keeps_half_pixels_witness :
  Z.abs (841 - 0) < 2 ^ 52 ∧ Z.abs (420 - 3) < 2 ^ 52 ∧
  ∃ x y qx qy,
    text_position (0, 3, 841, 420) = Ret (x, y) ∧
    float_value x = Some qx ∧ float_value y = Some qy ∧
    (Z.odd (841 - 0) = true →
       (qx == inject_Z ((1024 - (841 - 0)) / 2) + 1 / 2)%Q) ∧
    (Z.odd (420 - 3) = true →
       (qy == inject_Z ((1024 - (420 - 3)) / 2 - 40) + 1 / 2)%Q).
Proof.
  assert (Hw : Z.abs (841 - 0) < 2 ^ 52) by reflexivity.
  assert (Hh : Z.abs (420 - 3) < 2 ^ 52) by reflexivity.
  split; [exact Hw|]. split; [exact Hh|].
  exact (placement_keeps_half_pixels 0 3 841 420 Hw Hh).
Defined.
